(** * Satellite-centric MST link protocol

    A shallow embedding of [internal/links/isl_satellite_mst.go]
    (type [IslSatelliteCentricMstProtocol]) and the properties of its
    operations.

    Go pointers are modelled by natural-number addresses, the objects they
    point to live in an explicit [World]; every method of the protocol is a
    function from the state before the call to the state after it (the
    mutex makes each call atomic, so the sequential reading is the meaning
    of a call). *)

From stdpp Require Import base option list gmap strings.
From Stdlib Require Import ZArith Lia Sorted.

Local Open Scope Z_scope.

(** ** Nodes and links *)

(** [*satmod.Satellite]: [Some a] is the satellite at address [a], [None]
    is the nil pointer. *)
Abbreviation SatPtr := (option nat) (only parsing).

(** [*linkmod.IslLink], by address. *)
Abbreviation LinkPtr := nat (only parsing).

(** A value of the interface [types.INode]: a [*satmod.Satellite] or a node
    of some other concrete type. *)
Inductive INode : Type :=
  | SatelliteNode (a : nat)
  | OtherNode (a : nat).

#[global] Instance INode_eq_dec : EqDecision INode.
Proof. solve_decision. Defined.

(** A value of the interface [types.ILink]: a [*linkmod.IslLink] or a link
    of some other concrete type. *)
Inductive ILink : Type :=
  | IslLinkRef (l : LinkPtr)
  | OtherLink (a : nat).

#[global] Instance ILink_eq_dec : EqDecision ILink.
Proof. solve_decision. Defined.

(** The type assertion of a node to a satellite pointer: the pointer, or
    nil when the assertion fails. *)
Definition asSatellite (n : INode) : SatPtr :=
  match n with
  | SatelliteNode a => Some a
  | OtherNode _ => None
  end.

(** The type assertion of a link to an ISL link pointer; [None] is
    [ok = false]. *)
Definition asIslLink (l : ILink) : option LinkPtr :=
  match l with
  | IslLinkRef a => Some a
  | OtherLink _ => None
  end.

(** [types.Vector]; its coordinates are taken as integers and [Equals] as
    exact equality of the three coordinates. *)
Record Vector : Type := mkVector { vx : Z; vy : Z; vz : Z }.

#[global] Instance Vector_eq_dec : EqDecision Vector.
Proof. solve_decision. Defined.

Definition Equals (u v : Vector) : bool := bool_decide (u = v).

(** Modelled from the spec: the link object [linkmod.IslLink], whose source
    is not part of the verified file. It exposes two node endpoints, a
    distance (the value [Distance()] returns in the current world) and a
    settable established flag. *)
Record IslLink : Type := mkIslLink {
  Node1 : INode;
  Node2 : INode;
  Distance : Z;
  isEstablished : bool
}.

Definition withEstablished (b : bool) (o : IslLink) : IslLink :=
  {| Node1 := Node1 o; Node2 := Node2 o; Distance := Distance o;
     isEstablished := b |}.

(** ** The world around one protocol instance

    - [MaxISLDistance] is [configs.MaxISLDistance];
    - [linkAt] is the heap of link objects;
    - [PositionVector a] is what [PositionVector()] returns for the satellite
      at address [a];
    - [ISLProtocolLinks !! a] is what [ISLProtocol.Links()] returns for the
      satellite at [a]; no entry means that the satellite has no protocol
      (a nil interface). *)
Record World : Type := mkWorld {
  MaxISLDistance : Z;
  linkAt : LinkPtr → IslLink;
  PositionVector : nat → Vector;
  ISLProtocolLinks : gmap nat (list ILink)
}.

(** [l.SetEstablished(b)] *)
Definition SetEstablished (l : LinkPtr) (b : bool) (W : World) : World :=
  {| MaxISLDistance := MaxISLDistance W;
     linkAt := λ l', if decide (l' = l) then withEstablished b (linkAt W l)
                     else linkAt W l';
     PositionVector := PositionVector W;
     ISLProtocolLinks := ISLProtocolLinks W |}.

(** ** The link priority queue *)

Module LinkPriorityQueue.

(** Modelled from the spec: [linkmod.LinkPriorityQueue], whose source is
    not part of the verified file. [Enqueue] inserts in ascending order of
    priority, behind the items of the same priority; [Dequeue] removes the
    item of minimum priority, or returns nil on an empty queue. *)
Definition t : Type := list (LinkPtr * Z).

Definition NewLinkPriorityQueue : t := [].

Fixpoint Enqueue (l : LinkPtr) (priority : Z) (q : t) : t :=
  match q with
  | [] => [(l, priority)]
  | it :: q' =>
      if priority <? it.2 then (l, priority) :: it :: q'
      else it :: Enqueue l priority q'
  end.

Definition Dequeue (q : t) : option LinkPtr * t :=
  match q with
  | [] => (None, [])
  | it :: q' => (Some it.1, q')
  end.

Definition Clear (q : t) : t := [].

Definition Len (q : t) : Z := Z.of_nat (length q).

End LinkPriorityQueue.

Module PQ := LinkPriorityQueue.

(** ** Protocol state *)

(** The struct [IslSatelliteCentricMstProtocol]. The mutex has no field:
    every method holds it from entry to exit. [readyCh] is a channel of
    capacity one, [true] when a signal is pending. *)
Record IslSatelliteCentricMstProtocol : Type := mkProtocol {
  links : list LinkPtr;
  established : list LinkPtr;
  satellite : SatPtr;
  satellites : list SatPtr;
  position : Vector;
  visited : gmap SatPtr bool;
  pq : PQ.t;
  readyCh : bool
}.

Abbreviation Protocol := IslSatelliteCentricMstProtocol (only parsing).

Definition set_links (x : list LinkPtr) (p : Protocol) : Protocol :=
  mkProtocol x (established p) (satellite p) (satellites p) (position p)
             (visited p) (pq p) (readyCh p).

Definition set_established (x : list LinkPtr) (p : Protocol) : Protocol :=
  mkProtocol (links p) x (satellite p) (satellites p) (position p)
             (visited p) (pq p) (readyCh p).

Definition set_satellite (x : SatPtr) (p : Protocol) : Protocol :=
  mkProtocol (links p) (established p) x (satellites p) (position p)
             (visited p) (pq p) (readyCh p).

Definition set_satellites (x : list SatPtr) (p : Protocol) : Protocol :=
  mkProtocol (links p) (established p) (satellite p) x (position p)
             (visited p) (pq p) (readyCh p).

Definition set_position (x : Vector) (p : Protocol) : Protocol :=
  mkProtocol (links p) (established p) (satellite p) (satellites p) x
             (visited p) (pq p) (readyCh p).

Definition set_visited (x : gmap SatPtr bool) (p : Protocol) : Protocol :=
  mkProtocol (links p) (established p) (satellite p) (satellites p)
             (position p) x (pq p) (readyCh p).

Definition set_pq (x : PQ.t) (p : Protocol) : Protocol :=
  mkProtocol (links p) (established p) (satellite p) (satellites p)
             (position p) (visited p) x (readyCh p).

Definition set_readyCh (x : bool) (p : Protocol) : Protocol :=
  mkProtocol (links p) (established p) (satellite p) (satellites p)
             (position p) (visited p) (pq p) x.

(** Reading a Go [map[K]bool]: a missing key reads as [false]. *)
Definition mapGet `{Countable K} (m : gmap K bool) (k : K) : bool :=
  default false (m !! k).

(** An [error] result: [None] is nil. *)
Abbreviation error := (option string) (only parsing).

(** ** Operations *)

Definition NewIslSatelliteCentricMstProtocol : Protocol :=
  {| links := [];
     established := [];
     satellite := None;
     satellites := [];
     position := mkVector 0 0 0;
     visited := ∅;
     pq := PQ.NewLinkPriorityQueue;
     readyCh := false |}.

Definition Mount (sat : INode) (p : Protocol) : Protocol :=
  match satellite p with
  | None =>
      match sat with
      | SatelliteNode a => set_satellite (Some a) p
      | OtherNode _ => p
      end
  | Some _ => p
  end.

Definition AddLink (link : ILink) (p : Protocol) : Protocol :=
  match asIslLink link with
  | Some isl => set_links (links p ++ [isl]) p
  | None => p
  end.

Definition ConnectSatellite (s : INode) (p : Protocol) : Protocol * error :=
  (p, Some "ConnectSatellite not implemented"%string).

Definition ConnectLink (link : ILink) (p : Protocol) : Protocol * error :=
  match asIslLink link with
  | Some isl => (set_established (established p ++ [isl]) p, None)
  | None => (p, None)
  end.

Definition DisconnectSatellite (s : INode) (p : Protocol) : Protocol * error :=
  (p, Some "DisconnectSatellite not implemented"%string).

(** The loop of [DisconnectLink]: cut out the first entry that is the
    pointer [isl], then [break]. *)
Fixpoint removeFirst (isl : LinkPtr) (es : list LinkPtr) : list LinkPtr :=
  match es with
  | [] => []
  | l :: es' => if decide (l = isl) then es' else l :: removeFirst isl es'
  end.

Definition DisconnectLink (link : ILink) (p : Protocol) : Protocol * error :=
  match asIslLink link with
  | Some isl => (set_established (removeFirst isl (established p)) p, None)
  | None => (p, None)
  end.

Definition Links (p : Protocol) : list ILink := IslLinkRef <$> links p.

Definition Established (p : Protocol) : list ILink :=
  IslLinkRef <$> established p.

(** ** [UpdateLinks] *)

(** What a call does to its caller: it returns the links and a nil error,
    returns nil and an error, or panics. *)
Inductive Outcome : Type :=
  | Returned (result : list ILink)
  | Failed (err : string)
  | Panicked.

(** The set of satellites that occur as an endpoint of a candidate link
    (the local [satMap]). *)
Definition collectSatellites (W : World) (ls : list LinkPtr)
  : gmap SatPtr bool :=
  foldl (λ satMap link,
           let satMap :=
             match asSatellite (Node1 (linkAt W link)) with
             | Some a => <[Some a := true]> satMap
             | None => satMap
             end in
           match asSatellite (Node2 (linkAt W link)) with
           | Some a => <[Some a := true]> satMap
           | None => satMap
           end) ∅ ls.

(** [for sat := range satMap]: the keys, in an order the language leaves
    open. *)
Definition mapKeys (m : gmap SatPtr bool) : list SatPtr := (map_to_list m).*1.

(** Seeding the queue with the candidate links within range. *)
Definition seedQueue (W : World) (ls : list LinkPtr) (q : PQ.t) : PQ.t :=
  foldl (λ q l,
           if Distance (linkAt W l) <=? MaxISLDistance W
           then PQ.Enqueue l (Distance (linkAt W l)) q
           else q) q ls.

(** The inner loop over [newSat.ISLProtocol.Links()]. *)
Definition enqueueLinksOf (W : World) (vis : gmap SatPtr bool)
    (ls : list ILink) (q : PQ.t) : PQ.t :=
  foldl (λ q l,
           match asIslLink l with
           | Some isl =>
               if Distance (linkAt W isl) <=? MaxISLDistance W then
                 let s1 := asSatellite (Node1 (linkAt W isl)) in
                 let s2 := asSatellite (Node2 (linkAt W isl)) in
                 if negb (mapGet vis s1 && mapGet vis s2)
                 then PQ.Enqueue isl (Distance (linkAt W isl)) q
                 else q
               else q
           | None => q
           end) q ls.

(** How one round of the main loop ends: [Next] goes back to the loop
    condition, [Exit] leaves the loop, [Panic] is a nil dereference. Each
    carries the protocol state and the local [mst]. *)
Inductive Flow : Type :=
  | Next (p : Protocol) (mst : list LinkPtr)
  | Exit (p : Protocol) (mst : list LinkPtr)
  | Panic (p : Protocol) (mst : list LinkPtr).

(** [len(mst) < len(p.satellites)-1 && p.pq.Len() > 0] *)
Definition loopCond (p : Protocol) (mst : list LinkPtr) : bool :=
  (Z.of_nat (length mst) <? Z.of_nat (length (satellites p)) - 1)
  && (0 <? PQ.Len (pq p)).

(** The body of the main loop. *)
Definition loopBody (W : World) (p : Protocol) (mst : list LinkPtr) : Flow :=
  let (olink, q) := PQ.Dequeue (pq p) in
  let p := set_pq q p in
  match olink with
  | None => Exit p mst
  | Some link =>
      let s1 := asSatellite (Node1 (linkAt W link)) in
      let s2 := asSatellite (Node2 (linkAt W link)) in
      if mapGet (visited p) s1 && mapGet (visited p) s2 then Next p mst
      else
        let newSat := if negb (mapGet (visited p) s1) then s1 else s2 in
        match newSat with
        | None => Panic p mst
        | Some a =>
            match ISLProtocolLinks W !! a with
            | None => Panic p mst
            | Some ls =>
                let p := set_pq (enqueueLinksOf W (visited p) ls (pq p)) p in
                let mst := mst ++ [link] in
                Next (set_visited (<[newSat := true]> (visited p)) p) mst
            end
        end
  end.

(** The main loop, for at most [fuel] rounds. *)
Fixpoint primLoop (fuel : nat) (W : World) (p : Protocol)
    (mst : list LinkPtr) : option Flow :=
  match fuel with
  | O => None
  | S fuel' =>
      if loopCond p mst then
        match loopBody W p mst with
        | Next p' mst' => primLoop fuel' W p' mst'
        | Exit p' mst' => Some (Exit p' mst')
        | Panic p' mst' => Some (Panic p' mst')
        end
      else Some (Exit p mst)
  end.

(** A bound on the number of rounds: every round either shortens the queue
    or lengthens [mst], and a round that lengthens [mst] adds at most the
    longest link list of any satellite to the queue. *)
Definition maxLinks (W : World) : nat :=
  max_list (length <$> (map_to_list (ISLProtocolLinks W)).*2).

Definition loopMeasure (W : World) (p : Protocol) (mst : list LinkPtr) : nat :=
  (Z.to_nat (Z.of_nat (length (satellites p)) - 1 - Z.of_nat (length mst))
   * S (maxLinks W) + length (pq p))%nat.

Definition runLoop (W : World) (p : Protocol) (mst : list LinkPtr) : Flow :=
  default (Panic p mst) (primLoop (S (loopMeasure W p mst)) W p mst).

(** Reconciliation, first loop: flag the links of the tree and collect them
    in [estSet]. *)
Definition markTree (mst : list LinkPtr) (W : World)
  : World * gmap LinkPtr bool :=
  foldl (λ acc l, (SetEstablished l true acc.1, <[l := true]> acc.2))
        (W, ∅) mst.

(** Reconciliation, second loop: unflag the links that were established and
    are not in [estSet]. *)
Definition unmarkDropped (estSet : gmap LinkPtr bool) (old : list LinkPtr)
    (W : World) : World :=
  foldl (λ W l, if negb (mapGet estSet l) then SetEstablished l false W else W)
        W old.

(** Both loops of the reconciliation. *)
Definition reconcile (mst old : list LinkPtr) (W : World) : World :=
  let (W, estSet) := markTree mst W in
  unmarkDropped estSet old W.

(** The cache-miss path up to the main loop: the new cached position, the
    satellite list, the fresh visited set and the seeded queue, for the
    mounted satellite [a]. *)
Definition beginPass (W : World) (a : nat) (p : Protocol) : Protocol :=
  let p := set_position (PositionVector W a) p in
  let satMap := collectSatellites W (links p) in
  let p := set_satellites (mapKeys satMap) p in
  let p := set_visited ∅ p in
  let p := set_pq (PQ.Clear (pq p)) p in
  let p := set_pq (seedQueue W (links p) (pq p)) p in
  set_visited (<[Some a := true]> (visited p)) p.

Definition UpdateLinks (W : World) (p : Protocol)
  : Outcome * World * Protocol :=
  match satellite p with
  | None => (Failed "satellite not mounted", W, p)
  | Some a =>
      if Equals (position p) (PositionVector W a) then
        (Returned (IslLinkRef <$> established p), W, set_readyCh false p)
      else
        match runLoop W (beginPass W a p) [] with
        | Panic p _ => (Panicked, W, p)
        | Next p mst | Exit p mst =>
            let W := reconcile mst (established p) W in
            let p := set_established mst p in
            let p := set_readyCh true p in
            (Returned (IslLinkRef <$> mst), W, p)
        end
  end.

(** The states the main loop passes through: [loopReaches W p mst p' mst']
    when some number of rounds leads from the first state to the second. *)
Inductive loopReaches (W : World)
  : Protocol → list LinkPtr → Protocol → list LinkPtr → Prop :=
  | reaches_here p mst : loopReaches W p mst p mst
  | reaches_round p mst p1 mst1 p2 mst2 :
      loopCond p mst = true →
      loopBody W p mst = Next p1 mst1 →
      loopReaches W p1 mst1 p2 mst2 →
      loopReaches W p mst p2 mst2.

(** ** The established set as a graph *)

(** The link at [l] joins the nodes [u] and [v]. *)
Definition joins (W : World) (l : LinkPtr) (u v : INode) : Prop :=
  (Node1 (linkAt W l) = u ∧ Node2 (linkAt W l) = v)
  ∨ (Node1 (linkAt W l) = v ∧ Node2 (linkAt W l) = u).

(** The node [v] is an endpoint of the link at [l]. *)
Definition touches (W : World) (l : LinkPtr) (v : INode) : Prop :=
  Node1 (linkAt W l) = v ∨ Node2 (linkAt W l) = v.

(** [trail W E u ls w]: the links [ls], all taken from [E], lead from [u]
    to [w], each one joining the node reached so far to the next one. *)
Inductive trail (W : World) (E : list LinkPtr)
  : INode → list LinkPtr → INode → Prop :=
  | trail_stop u : trail W E u [] u
  | trail_go u l v ls w :
      l ∈ E → joins W l u v → trail W E v ls w → trail W E u (l :: ls) w.

(** A cycle of [E]: a closed trail of at least one link that uses no link
    twice. *)
Definition hasCycle (W : World) (E : list LinkPtr) : Prop :=
  ∃ u ls, ls ≠ [] ∧ NoDup ls ∧ trail W E u ls u.

(** A list of links built by hanging, each time, one new node [v] on what
    was there. *)
Inductive grown (W : World) : list LinkPtr → Prop :=
  | grown_nil : grown W []
  | grown_snoc E l v w :
      grown W E → joins W l v w → v ≠ w →
      (∀ e, e ∈ E → ¬ touches W e v) →
      grown W (E ++ [l]).

(** The link at [l] has the satellite at [a] as an endpoint. *)
Definition incident (W : World) (l : LinkPtr) (a : nat) : Prop :=
  touches W l (SatelliteNode a).

(** ** Invariants of the main loop *)

(** The distance filter as an invariant of the rounds. *)
Definition withinRange (W : World) (p : Protocol) (mst : list LinkPtr)
  : Prop :=
  (∀ l d, (l, d) ∈ pq p → Distance (linkAt W l) ≤ MaxISLDistance W)
  ∧ (∀ l, l ∈ mst → Distance (linkAt W l) ≤ MaxISLDistance W).

(** The fields a round of the loop leaves alone. *)
Definition sameFrame (p p' : Protocol) : Prop :=
  links p' = links p ∧ established p' = established p
  ∧ satellite p' = satellite p ∧ satellites p' = satellites p
  ∧ position p' = position p ∧ readyCh p' = readyCh p.

(** Where a link can come from: the candidate list [own] of the protocol
    itself, or the list that the protocol of a visited satellite returns
    from [Links()]. *)
Definition fromLists (W : World) (own : list LinkPtr)
    (vis : gmap SatPtr bool) (l : LinkPtr) : Prop :=
  l ∈ own
  ∨ ∃ b ls, mapGet vis (Some b) = true
            ∧ ISLProtocolLinks W !! b = Some ls ∧ IslLinkRef l ∈ ls.

Definition sourced (W : World) (own : list LinkPtr) (p : Protocol)
    (mst : list LinkPtr) : Prop :=
  (∀ l d, (l, d) ∈ pq p → fromLists W own (visited p) l)
  ∧ (∀ l, l ∈ mst → fromLists W own (visited p) l).

(** The visited set holds [true] only, and has one key more than the tree
    has links. *)
Definition counted (p : Protocol) (mst : list LinkPtr) : Prop :=
  (∀ k b, visited p !! k = Some b → b = true)
  ∧ S (length mst) = size (visited p).

(** The tree invariant: every queued link has a visited satellite as an
    endpoint, every link of the tree has visited satellites at both ends,
    and the tree was grown node by node. *)
Definition treeInv (W : World) (p : Protocol) (mst : list LinkPtr) : Prop :=
  (∀ l d, (l, d) ∈ pq p →
          ∃ b, mapGet (visited p) (Some b) = true ∧ incident W l b)
  ∧ (∀ l v, l ∈ mst → touches W l v →
            ∃ b, v = SatelliteNode b ∧ mapGet (visited p) (Some b) = true)
  ∧ grown W mst.

(** A link the loop can take without a nil dereference: both endpoints are
    satellites, and each of them is the mounted satellite [a] or has a
    protocol. *)
Definition usable (W : World) (a : nat) (l : LinkPtr) : Prop :=
  ∀ v, touches W l v →
       ∃ b, v = SatelliteNode b
            ∧ (b = a ∨ is_Some (ISLProtocolLinks W !! b)).

Definition allUsable (W : World) (a : nat) (p : Protocol)
    (mst : list LinkPtr) : Prop :=
  mapGet (visited p) (Some a) = true
  ∧ ∀ l d, (l, d) ∈ pq p → usable W a l.

(** ** The example scenario

    Satellites A, B and C and the links A-B (distance 10), A-C (distance 50)
    and B-C (distance 5), with a maximum range of 100. The booleans choose
    which endpoint of a link is [Node1]; [cur] is the position of every
    satellite; [lsB] and [lsC] are the candidate lists of the protocols of
    B and C. *)
Definition satA : nat := 0.
Definition satB : nat := 1.
Definition satC : nat := 2.
Definition satD : nat := 3.

Definition linkAB : LinkPtr := 0.
Definition linkAC : LinkPtr := 1.
Definition linkBC : LinkPtr := 2.

Definition between (forwards : bool) (u v : nat) (d : Z) : IslLink :=
  if forwards then mkIslLink (SatelliteNode u) (SatelliteNode v) d false
  else mkIslLink (SatelliteNode v) (SatelliteNode u) d false.

Definition scenarioLinkAt (oab oac obc : bool) (l : LinkPtr) : IslLink :=
  if decide (l = linkAB) then between oab satA satB 10
  else if decide (l = linkAC) then between oac satA satC 50
  else between obc satB satC 5.

Definition scenarioWorld (oab oac obc : bool) (cur : Vector)
    (lsB lsC : list ILink) : World :=
  {| MaxISLDistance := 100;
     linkAt := scenarioLinkAt oab oac obc;
     PositionVector := λ _, cur;
     ISLProtocolLinks := <[satB := lsB]> (<[satC := lsC]> ∅) |}.

(** A new protocol mounted on A. *)
Definition mountedOnA : Protocol :=
  Mount (SatelliteNode satA) NewIslSatelliteCentricMstProtocol.

(** A's protocol with the links that touch A as its candidates. *)
Definition ownLinksOnA : Protocol :=
  AddLink (IslLinkRef linkAC) (AddLink (IslLinkRef linkAB) mountedOnA).

(** A's protocol with all three links as its candidates. *)
Definition allLinksOnA : Protocol :=
  AddLink (IslLinkRef linkBC) ownLinksOnA.

(** Every protocol lists the links that touch its own satellite. *)
Definition incidentWorld : World :=
  scenarioWorld true true true (mkVector 1 0 0)
    [IslLinkRef linkAB; IslLinkRef linkBC]
    [IslLinkRef linkAC; IslLinkRef linkBC].

(** The protocols of B and C have no candidates. *)
Definition bareWorld : World :=
  scenarioWorld true true true (mkVector 1 0 0) [] [].

(** ** A triangle

    Satellites A, B, C and D with the links B-C (1), B-D (2), C-D (3) and
    A-B (10), all of them candidates of A's protocol; the protocols of B, C
    and D have no candidates. *)
Definition triangleLinkAt (l : LinkPtr) : IslLink :=
  match l with
  | 0%nat => between true satB satC 1
  | 1%nat => between true satB satD 2
  | 2%nat => between true satC satD 3
  | _ => between true satA satB 10
  end.

Definition triangleWorld : World :=
  {| MaxISLDistance := 100;
     linkAt := triangleLinkAt;
     PositionVector := λ _, mkVector 1 0 0;
     ISLProtocolLinks := <[satB := []]> (<[satC := []]> (<[satD := []]> ∅)) |}.

Definition triangleProtocol : Protocol :=
  AddLink (IslLinkRef 3%nat)
    (AddLink (IslLinkRef 2%nat)
       (AddLink (IslLinkRef 1%nat)
          (AddLink (IslLinkRef 0%nat) mountedOnA))).

(** The world [W] with another maximum range. *)
Definition withMaxISLDistance (m : Z) (W : World) : World :=
  {| MaxISLDistance := m;
     linkAt := linkAt W;
     PositionVector := PositionVector W;
     ISLProtocolLinks := ISLProtocolLinks W |}.

(** A protocol that last computed its tree at (1, 0, 0). *)
Definition staleProtocol : Protocol :=
  set_position (mkVector 1 0 0) NewIslSatelliteCentricMstProtocol.

(** [incidentWorld] with the link A-C flagged as established. *)
Definition flaggedWorld : World := SetEstablished linkAC true incidentWorld.

(** A's protocol with its own links as candidates and A-C connected by
    hand. *)
Definition connectedAC : Protocol :=
  (ConnectLink (IslLinkRef linkAC) ownLinksOnA).1.

(** ** Setting a protocol up *)

(** [AddLink] called on each link of [ls] in turn. *)
Definition addLinks (ls : list ILink) (p : Protocol) : Protocol :=
  foldl (λ p link, AddLink link p) p ls.

(** A link whose far end cannot be expanded: the node [v] is no satellite,
    or it is a satellite without a protocol. *)
Definition deadEnd (W : World) (v : INode) : Prop :=
  asSatellite v = None
  ∨ ∃ b, v = SatelliteNode b ∧ ISLProtocolLinks W !! b = None.

(** Every link of the tree reaches a satellite other than the mounted one
    [a], visited in this pass and with a protocol of its own. *)
Definition reachesOut (W : World) (a : nat) (p : Protocol)
    (mst : list LinkPtr) : Prop :=
  mapGet (visited p) (Some a) = true
  ∧ ∀ l, l ∈ mst →
      ∃ b, b ≠ a ∧ touches W l (SatelliteNode b)
           ∧ mapGet (visited p) (Some b) = true
           ∧ is_Some (ISLProtocolLinks W !! b).

(** The tree is never longer than the loop condition allows. *)
Definition bounded (p : Protocol) (mst : list LinkPtr) : Prop :=
  Z.of_nat (length mst) ≤ Z.max 0 (Z.of_nat (length (satellites p)) - 1).

(** The protocol state a round or a run of the loop ends in. *)
Definition flowState (f : Flow) : Protocol :=
  match f with
  | Next p _ | Exit p _ | Panic p _ => p
  end.

(** The world [W'] differs from [W] in established flags only. *)
Definition sameButFlags (W W' : World) : Prop :=
  MaxISLDistance W' = MaxISLDistance W
  ∧ PositionVector W' = PositionVector W
  ∧ ISLProtocolLinks W' = ISLProtocolLinks W
  ∧ ∀ l, Node1 (linkAt W' l) = Node1 (linkAt W l)
         ∧ Node2 (linkAt W' l) = Node2 (linkAt W l)
         ∧ Distance (linkAt W' l) = Distance (linkAt W l).

(** [f] applied to the protocol state a round or a run ends in. *)
Definition mapFlow (f : Protocol → Protocol) (r : Flow) : Flow :=
  match r with
  | Next p mst => Next (f p) mst
  | Exit p mst => Exit (f p) mst
  | Panic p mst => Panic (f p) mst
  end.

(** The established list and the pending signal replaced, the rest kept. *)
Definition withLeftovers (es : list LinkPtr) (rc : bool) (p : Protocol)
  : Protocol :=
  set_readyCh rc (set_established es p).

(** The queue is in ascending order of priority. *)
Definition ascending (q : PQ.t) : Prop :=
  StronglySorted (λ x y : LinkPtr * Z, x.2 ≤ y.2) q.

(** ** A ground station

    Satellite A with a link of distance 3 to a node that is no satellite
    and a link of distance 10 to satellite B. *)
Definition groundLinkAt (l : LinkPtr) : IslLink :=
  match l with
  | 0%nat => mkIslLink (SatelliteNode satA) (OtherNode 9) 3 false
  | _ => between true satA satB 10
  end.

Definition groundWorld : World :=
  {| MaxISLDistance := 100;
     linkAt := groundLinkAt;
     PositionVector := λ _, mkVector 1 0 0;
     ISLProtocolLinks := <[satB := []]> ∅ |}.

(** The tree reaches every visited satellite from the mounted one [a]. *)
Definition connectsVisited (W : World) (a : nat) (p : Protocol)
    (mst : list LinkPtr) : Prop :=
  ∀ b, mapGet (visited p) (Some b) = true →
       ∃ ls, trail W mst (SatelliteNode a) ls (SatelliteNode b).

(** ** A path

    Satellites A, B, C and D in a row, with the links A-B, B-C and C-D of
    distance 10 each; every protocol lists the links that touch its own
    satellite. *)
Definition pathLinkAt (l : LinkPtr) : IslLink :=
  match l with
  | 0%nat => between true satA satB 10
  | 1%nat => between true satB satC 10
  | _ => between true satC satD 10
  end.

Definition pathWorld : World :=
  {| MaxISLDistance := 100;
     linkAt := pathLinkAt;
     PositionVector := λ _, mkVector 1 0 0;
     ISLProtocolLinks :=
       <[satB := [IslLinkRef 0%nat; IslLinkRef 1%nat]]>
         (<[satC := [IslLinkRef 1%nat; IslLinkRef 2%nat]]>
            (<[satD := [IslLinkRef 2%nat]]> ∅)) |}.

Definition pathProtocol : Protocol := AddLink (IslLinkRef 0%nat) mountedOnA.

(** * Properties *)

(** ** The operations that do not run the algorithm *)

Lemma removeFirst_app_same (l : LinkPtr) (es : list LinkPtr) :
  removeFirst l (es ++ [l]) ≡ₚ es.
Proof.
  induction es as [|x es IH]; simpl.
  - by rewrite decide_True.
  - destruct (decide (x = l)) as [->|Hne].
    + symmetry. apply Permutation_cons_append.
    + by rewrite IH.
Qed.

Lemma removeFirst_app_fresh (l : LinkPtr) (es : list LinkPtr) :
  l ∉ es → removeFirst l (es ++ [l]) = es.
Proof.
  induction es as [|x es IH]; simpl; intros Hnotin.
  - by rewrite decide_True.
  - apply not_elem_of_cons in Hnotin as [Hne Hnotin].
    rewrite decide_False; [|done]. by rewrite IH.
Qed.

Lemma removeFirst_absent (l : LinkPtr) (es : list LinkPtr) :
  l ∉ es → removeFirst l es = es.
Proof.
  induction es as [|x es IH]; simpl; intros Hnotin; [done|].
  apply not_elem_of_cons in Hnotin as [Hne Hnotin].
  rewrite decide_False; [|done]. by rewrite IH.
Qed.

Lemma removeFirst_length (l : LinkPtr) (es : list LinkPtr) :
  (length es ≤ S (length (removeFirst l es)))%nat.
Proof.
  induction es as [|x es IH]; simpl; [lia|].
  destruct (decide (x = l)); simpl; lia.
Qed.

(** C6. [ConnectLink(L)] followed at once by [DisconnectLink(L)], for a link
    [L] of the protocol's own link type, leaves the established list a
    permutation of what it was, hence with the same elements (equal as a
    set), and leaves the rest of the state as it was; both calls return a
    nil error. *)
Theorem ConnectLink_DisconnectLink_roundtrip (p : Protocol) (l : LinkPtr) :
  let c := ConnectLink (IslLinkRef l) p in
  let d := DisconnectLink (IslLinkRef l) c.1 in
  c.2 = None ∧ d.2 = None
  ∧ established d.1 ≡ₚ established p
  ∧ (∀ x, x ∈ established d.1 ↔ x ∈ established p)
  ∧ set_established (established p) d.1 = p.
Proof.
  simpl. repeat split; try done.
  - apply removeFirst_app_same.
  - by rewrite removeFirst_app_same.
  - by rewrite removeFirst_app_same.
  - by destruct p.
Qed.

(** C9. [DisconnectLink] on a link that is not of the protocol's own link
    type returns a nil error and leaves the whole state as it was. *)
Theorem DisconnectLink_foreign_noop (p : Protocol) (a : nat) :
  DisconnectLink (OtherLink a) p = (p, None).
Proof. reflexivity. Qed.

(** C10. [ConnectSatellite] and [DisconnectSatellite] return an error that
    is not nil, whatever the node, and the state after the call is the state
    before it in every field. *)
Theorem ConnectSatellite_DisconnectSatellite_unsupported
    (p : Protocol) (s : INode) :
  (ConnectSatellite s p).1 = p ∧ is_Some (ConnectSatellite s p).2
  ∧ (DisconnectSatellite s p).1 = p ∧ is_Some (DisconnectSatellite s p).2.
Proof. repeat split; by eexists. Qed.

(** C7. On a protocol that is not mounted [UpdateLinks] returns an error,
    and neither the protocol state nor the world changes. *)
Theorem UpdateLinks_not_mounted (W : World) (p : Protocol) :
  satellite p = None →
  ∃ err, UpdateLinks W p = (Failed err, W, p).
Proof. intros Hnil. unfold UpdateLinks. rewrite Hnil. by eexists. Qed.

(** ** The main loop *)

Lemma sameFrame_refl p : sameFrame p p.
Proof. by repeat split. Qed.

Lemma sameFrame_trans p1 p2 p3 :
  sameFrame p1 p2 → sameFrame p2 p3 → sameFrame p1 p3.
Proof. unfold sameFrame. intros ? ?. intuition congruence. Qed.

Lemma Enqueue_length l d (q : PQ.t) :
  length (PQ.Enqueue l d q) = S (length q).
Proof.
  induction q as [|it q IH]; simpl; [done|].
  destruct (d <? it.2); simpl; by rewrite ?IH.
Qed.

Lemma Enqueue_elem_of l d (q : PQ.t) it :
  it ∈ PQ.Enqueue l d q ↔ it = (l, d) ∨ it ∈ q.
Proof.
  induction q as [|x q IH]; simpl.
  - by rewrite elem_of_cons.
  - destruct (d <? x.2).
    + by rewrite elem_of_cons.
    + rewrite !elem_of_cons, IH. tauto.
Qed.

Lemma enqueueLinksOf_length W vis ls (q : PQ.t) :
  (length (enqueueLinksOf W vis ls q) ≤ length q + length ls)%nat.
Proof.
  unfold enqueueLinksOf. revert q.
  induction ls as [|l ls IH]; intros q; simpl; [lia|].
  etrans; [apply IH|].
  destruct (asIslLink l); [|lia].
  destruct (_ <=? _); [|lia].
  destruct (negb _); rewrite ?Enqueue_length; lia.
Qed.

Lemma maxLinks_bound W a ls :
  ISLProtocolLinks W !! a = Some ls → (length ls ≤ maxLinks W)%nat.
Proof.
  intros Hls. apply max_list_elem_of_le.
  apply list_elem_of_fmap. exists ls. split; [done|].
  apply list_elem_of_fmap. exists (a, ls). split; [done|].
  by apply elem_of_map_to_list.
Qed.

(** The case analysis of one round. Under the loop condition the queue is
    not empty, so a round never leaves the loop through [break]: it skips a
    link whose endpoints are both visited, adds a link, or panics. *)
Lemma loopBody_cases W p mst :
  loopCond p mst = true →
  ∃ link d q,
    pq p = (link, d) :: q ∧
    let s1 := asSatellite (Node1 (linkAt W link)) in
    let s2 := asSatellite (Node2 (linkAt W link)) in
    (mapGet (visited p) s1 = true ∧ mapGet (visited p) s2 = true
     ∧ loopBody W p mst = Next (set_pq q p) mst)
    ∨ (∃ a ls,
         (mapGet (visited p) s1 = false ∧ s1 = Some a
          ∨ mapGet (visited p) s1 = true ∧ mapGet (visited p) s2 = false
            ∧ s2 = Some a)
         ∧ ISLProtocolLinks W !! a = Some ls
         ∧ loopBody W p mst =
             Next (set_visited (<[Some a := true]> (visited p))
                     (set_pq (enqueueLinksOf W (visited p) ls q) p))
                  (mst ++ [link]))
    ∨ (∃ p', loopBody W p mst = Panic p' mst).
Proof.
  unfold loopCond, PQ.Len. intros Hc.
  apply andb_prop in Hc as [_ Hlen]. apply Z.ltb_lt in Hlen.
  destruct (pq p) as [|[link d] q] eqn:Hq; simpl in Hlen; [lia|].
  exists link, d, q. split; [reflexivity|].
  set (s1 := asSatellite (Node1 (linkAt W link))).
  set (s2 := asSatellite (Node2 (linkAt W link))).
  unfold loopBody. rewrite Hq. simpl. fold s1 s2.
  destruct (mapGet (visited p) s1) eqn:H1; simpl.
  - destruct (mapGet (visited p) s2) eqn:H2; simpl; [by left|].
    destruct s2 as [a|] eqn:Hs2; [|right; right; by eexists].
    destruct (ISLProtocolLinks W !! a) as [ls|] eqn:Hls;
      [|right; right; by eexists].
    right; left. exists a, ls. split; [by right|]. done.
  - destruct s1 as [a|] eqn:Hs1; [|right; right; by eexists].
    destruct (ISLProtocolLinks W !! a) as [ls|] eqn:Hls;
      [|right; right; by eexists].
    right; left. exists a, ls. split; [by left|]. done.
Qed.

Lemma loopCond_more_to_add p mst :
  loopCond p mst = true →
  Z.of_nat (length mst) < Z.of_nat (length (satellites p)) - 1.
Proof.
  unfold loopCond. intros Hc. apply andb_prop in Hc as [Hlt _].
  by apply Z.ltb_lt.
Qed.

(** A round that goes back to the loop condition lowers the measure and
    leaves the other fields alone. *)
Lemma loopBody_Next W p mst p' mst' :
  loopCond p mst = true → loopBody W p mst = Next p' mst' →
  (loopMeasure W p' mst' < loopMeasure W p mst)%nat ∧ sameFrame p p'.
Proof.
  intros Hc Hb. pose proof (loopCond_more_to_add _ _ Hc) as Hlt.
  destruct (loopBody_cases W p mst Hc) as (link & d & q & Hq & Hcases).
  destruct Hcases as [(_ & _ & Hskip)|[(a & ls & _ & Hls & Hadd)|[p0 Hp]]].
  - rewrite Hskip in Hb. injection Hb as <- <-.
    split; [|by repeat split].
    unfold loopMeasure. simpl. rewrite Hq. simpl. lia.
  - rewrite Hadd in Hb. injection Hb as <- <-.
    split; [|by repeat split].
    unfold loopMeasure. simpl. rewrite Hq, length_app. simpl.
    pose proof (enqueueLinksOf_length W (visited p) ls q) as Hlen.
    pose proof (maxLinks_bound W a ls Hls) as Hmax.
    set (n := length (satellites p)) in *. set (k := length mst) in *.
    replace (Z.to_nat (Z.of_nat n - 1 - Z.of_nat k))
      with (S (Z.to_nat (Z.of_nat n - 1 - Z.of_nat (k + 1)))) by lia.
    simpl. lia.
  - congruence.
Qed.

(** The fuel [runLoop] gives the loop is enough. *)
Lemma primLoop_total W fuel p mst :
  (loopMeasure W p mst < fuel)%nat → is_Some (primLoop fuel W p mst).
Proof.
  revert p mst. induction fuel as [|fuel IH]; intros p mst Hm; [lia|].
  simpl. destruct (loopCond p mst) eqn:Hc; [|by eexists].
  destruct (loopBody W p mst) as [p1 mst1|p1 mst1|p1 mst1] eqn:Hb;
    [|by eexists..].
  apply IH. destruct (loopBody_Next W p mst p1 mst1 Hc Hb) as [Hlt _]. lia.
Qed.

Lemma primLoop_not_Next fuel W p mst p' mst' :
  primLoop fuel W p mst ≠ Some (Next p' mst').
Proof.
  revert p mst. induction fuel as [|fuel IH]; intros p mst; simpl; [done|].
  destruct (loopCond p mst); [|done].
  destruct (loopBody W p mst); [apply IH|done..].
Qed.

Lemma primLoop_Exit fuel W p mst p' mst' :
  primLoop fuel W p mst = Some (Exit p' mst') →
  loopReaches W p mst p' mst' ∧ loopCond p' mst' = false.
Proof.
  revert p mst. induction fuel as [|fuel IH]; intros p mst; simpl; [done|].
  destruct (loopCond p mst) eqn:Hc.
  - destruct (loopBody W p mst) as [p1 mst1|p1 mst1|p1 mst1] eqn:Hb.
    + intros Hrec. destruct (IH _ _ Hrec) as [Hreach Hstop].
      split; [|done]. by eapply reaches_round.
    + destruct (loopBody_cases W p mst Hc) as (link & d & q & _ & Hcases).
      destruct Hcases as [(_ & _ & H)|[(a & ls & _ & _ & H)|[p0 H]]];
        congruence.
    + done.
  - intros [= <- <-]. split; [constructor|done].
Qed.

Lemma primLoop_reaches fuel W p mst p' mst' :
  loopReaches W p mst p' mst' → loopCond p' mst' = false →
  (loopMeasure W p mst < fuel)%nat →
  primLoop fuel W p mst = Some (Exit p' mst').
Proof.
  intros Hreach Hstop. revert fuel.
  induction Hreach as [p mst|p mst p1 mst1 p2 mst2 Hc Hb _ IH]; intros fuel Hm.
  - destruct fuel; [lia|]. simpl. by rewrite Hstop.
  - destruct fuel; [lia|]. simpl. rewrite Hc, Hb. apply IH; [done|].
    destruct (loopBody_Next W p mst p1 mst1 Hc Hb) as [Hlt _]. lia.
Qed.

Lemma runLoop_Exit W p mst p' mst' :
  runLoop W p mst = Exit p' mst' ↔
  loopReaches W p mst p' mst' ∧ loopCond p' mst' = false.
Proof.
  unfold runLoop. split.
  - destruct (primLoop _ W p mst) as [r|] eqn:Hrun; simpl; [|done].
    intros ->. by eapply primLoop_Exit.
  - intros [Hreach Hstop].
    rewrite (primLoop_reaches _ W p mst p' mst' Hreach Hstop); [done|lia].
Qed.

Lemma runLoop_not_Next W p mst p' mst' : runLoop W p mst ≠ Next p' mst'.
Proof.
  unfold runLoop.
  destruct (primLoop _ W p mst) as [r|] eqn:Hrun; simpl; [|done].
  intros ->. by eapply primLoop_not_Next.
Qed.

(** The loop runs to its end: the fuel never runs out. *)
Lemma runLoop_primLoop W p mst :
  primLoop (S (loopMeasure W p mst)) W p mst = Some (runLoop W p mst).
Proof.
  unfold runLoop.
  destruct (primLoop_total W (S (loopMeasure W p mst)) p mst) as [r Hr];
    [lia|].
  by rewrite Hr.
Qed.

(** An invariant of the rounds holds in every state the loop reaches. *)
Lemma loopReaches_invariant W (I : Protocol → list LinkPtr → Prop) :
  (∀ p mst p' mst',
     I p mst → loopCond p mst = true → loopBody W p mst = Next p' mst' →
     I p' mst') →
  ∀ p mst p' mst', loopReaches W p mst p' mst' → I p mst → I p' mst'.
Proof.
  intros Hstep p mst p' mst' Hreach.
  induction Hreach as [|p mst p1 mst1 p2 mst2 Hc Hb _ IH]; [done|].
  intros HI. apply IH. by eapply Hstep.
Qed.

Lemma loopReaches_sameFrame W p mst p' mst' :
  loopReaches W p mst p' mst' → sameFrame p p'.
Proof.
  intros Hreach.
  apply (loopReaches_invariant W (λ q _, sameFrame p q)) in Hreach;
    [done| |apply sameFrame_refl].
  intros q m q' m' Hq Hc Hb. eapply sameFrame_trans; [done|].
  by destruct (loopBody_Next W q m q' m' Hc Hb).
Qed.

(** ** The two paths of [UpdateLinks] *)

Lemma Equals_true u v : Equals u v = true ↔ u = v.
Proof. unfold Equals. apply bool_decide_eq_true. Qed.

Lemma Equals_false u v : Equals u v = false ↔ u ≠ v.
Proof. unfold Equals. apply bool_decide_eq_false. Qed.

Lemma UpdateLinks_hit W p a :
  satellite p = Some a → position p = PositionVector W a →
  UpdateLinks W p
  = (Returned (IslLinkRef <$> established p), W, set_readyCh false p).
Proof.
  intros Hsat Hpos. unfold UpdateLinks. rewrite Hsat.
  by rewrite (proj2 (Equals_true _ _) Hpos).
Qed.

(** What a cache miss that returns has done: the loop ran from the state
    [beginPass] sets up to a state [q] with tree [mst] where its condition
    fails, and the reconciliation followed. *)
Lemma UpdateLinks_miss W p a res W' p' :
  satellite p = Some a → position p ≠ PositionVector W a →
  UpdateLinks W p = (Returned res, W', p') →
  ∃ q mst,
    loopReaches W (beginPass W a p) [] q mst
    ∧ loopCond q mst = false
    ∧ res = IslLinkRef <$> mst
    ∧ W' = reconcile mst (established p) W
    ∧ p' = set_readyCh true (set_established mst q).
Proof.
  intros Hsat Hpos. unfold UpdateLinks. rewrite Hsat.
  rewrite (proj2 (Equals_false _ _) Hpos).
  destruct (runLoop W (beginPass W a p) []) as [q mst|q mst|q mst] eqn:Hrun.
  - by apply runLoop_not_Next in Hrun.
  - apply runLoop_Exit in Hrun as [Hreach Hstop].
    pose proof (loopReaches_sameFrame _ _ _ _ _ Hreach) as (_ & Hest & _).
    intros [= <- <- <-]. exists q, mst. rewrite Hest. done.
  - done.
Qed.

(** Conversely, a cache miss whose loop ends returns. *)
Lemma UpdateLinks_miss_returns W p a q mst :
  satellite p = Some a → position p ≠ PositionVector W a →
  loopReaches W (beginPass W a p) [] q mst → loopCond q mst = false →
  UpdateLinks W p
  = (Returned (IslLinkRef <$> mst), reconcile mst (established p) W,
     set_readyCh true (set_established mst q)).
Proof.
  intros Hsat Hpos Hreach Hstop. unfold UpdateLinks. rewrite Hsat.
  rewrite (proj2 (Equals_false _ _) Hpos).
  pose proof (loopReaches_sameFrame _ _ _ _ _ Hreach) as (_ & Hest & _).
  rewrite (proj2 (runLoop_Exit _ _ _ _ _) (conj Hreach Hstop)).
  by rewrite Hest.
Qed.

(** ** Reconciliation *)

Lemma mapGet_insert `{Countable K} (m : gmap K bool) (k k' : K) (b : bool) :
  mapGet (<[k := b]> m) k' = if decide (k = k') then b else mapGet m k'.
Proof.
  unfold mapGet. rewrite lookup_insert.
  by destruct (decide (k = k')).
Qed.

Lemma mapGet_empty `{Countable K} (k : K) : mapGet (∅ : gmap K bool) k = false.
Proof. unfold mapGet. by rewrite lookup_empty. Qed.

Lemma withEstablished_idemp b b' o :
  withEstablished b (withEstablished b' o) = withEstablished b o.
Proof. reflexivity. Qed.

Lemma markTree_spec mst W :
  let r := markTree mst W in
  (∀ l, mapGet r.2 l = bool_decide (l ∈ mst))
  ∧ (∀ l, linkAt r.1 l
          = if bool_decide (l ∈ mst) then withEstablished true (linkAt W l)
            else linkAt W l)
  ∧ MaxISLDistance r.1 = MaxISLDistance W
  ∧ PositionVector r.1 = PositionVector W
  ∧ ISLProtocolLinks r.1 = ISLProtocolLinks W.
Proof.
  unfold markTree.
  assert (∀ acc,
    let r := foldl (λ acc l, (SetEstablished l true acc.1, <[l:=true]> acc.2))
                   acc mst in
    (∀ l, mapGet r.2 l = mapGet acc.2 l || bool_decide (l ∈ mst))
    ∧ (∀ l, linkAt r.1 l
            = if bool_decide (l ∈ mst)
              then withEstablished true (linkAt acc.1 l)
              else linkAt acc.1 l)
    ∧ MaxISLDistance r.1 = MaxISLDistance acc.1
    ∧ PositionVector r.1 = PositionVector acc.1
    ∧ ISLProtocolLinks r.1 = ISLProtocolLinks acc.1) as Hgen.
  { induction mst as [|x mst IH]; intros acc; simpl.
    - repeat split; try done. intros l. by rewrite orb_false_r.
    - destruct (IH (SetEstablished x true acc.1, <[x:=true]> acc.2))
        as (Hset & Hlink & Hmax & Hpos & Hprot).
      simpl in *. repeat split; try done.
      + intros l. rewrite Hset, mapGet_insert.
        destruct (decide (x = l)) as [->|Hne].
        * rewrite (bool_decide_eq_true_2 (l ∈ l :: mst)); [|by left].
          by rewrite orb_true_r.
        * f_equal. apply bool_decide_ext. rewrite elem_of_cons.
          intuition congruence.
      + intros l. rewrite Hlink.
        destruct (decide (l = x)) as [->|Hne].
        * rewrite (bool_decide_eq_true_2 (x ∈ x :: mst)); [|by left].
          by destruct (bool_decide (x ∈ mst)).
        * apply (f_equal (λ b : bool, if b then _ else _)).
          apply bool_decide_ext. rewrite elem_of_cons.
          intuition congruence. }
  destruct (Hgen (W, ∅)) as (Hset & Hrest). simpl in *.
  split; [|done]. intros l. by rewrite Hset, mapGet_empty.
Qed.

Lemma unmarkDropped_spec estSet old W :
  let W' := unmarkDropped estSet old W in
  (∀ l, linkAt W' l
        = if bool_decide (l ∈ old) && negb (mapGet estSet l)
          then withEstablished false (linkAt W l)
          else linkAt W l)
  ∧ MaxISLDistance W' = MaxISLDistance W
  ∧ PositionVector W' = PositionVector W
  ∧ ISLProtocolLinks W' = ISLProtocolLinks W.
Proof.
  unfold unmarkDropped. revert W.
  induction old as [|x old IH]; intros W; simpl; [done|].
  set (W1 := if negb (mapGet estSet x) then SetEstablished x false W else W).
  destruct (IH W1) as (Hlink & Hmax & Hpos & Hprot).
  assert (MaxISLDistance W1 = MaxISLDistance W
          ∧ PositionVector W1 = PositionVector W
          ∧ ISLProtocolLinks W1 = ISLProtocolLinks W) as (HM & HP & HL).
  { unfold W1. by destruct (negb _). }
  repeat split; try congruence.
  intros l. rewrite Hlink.
  destruct (decide (l = x)) as [->|Hne].
  - rewrite (bool_decide_eq_true_2 (x ∈ x :: old)); [|by left].
    unfold W1. destruct (negb (mapGet estSet x)) eqn:Hx; simpl.
    + rewrite decide_True; [|done].
      by destruct (bool_decide (x ∈ old)).
    + by rewrite andb_false_r.
  - assert (linkAt W1 l = linkAt W l) as ->.
    { unfold W1. destruct (negb _); [|done]. simpl. by rewrite decide_False. }
    apply (f_equal (λ b : bool, if b && _ then _ else _)).
    apply bool_decide_ext. rewrite elem_of_cons. intuition congruence.
Qed.

(** What the reconciliation leaves in the world: the flag of every link of
    the tree is set, the flag of every other link of the old established
    list is cleared, and nothing else changes. *)
Lemma reconcile_spec mst old W :
  let W' := reconcile mst old W in
  (∀ l, linkAt W' l
        = if bool_decide (l ∈ mst) then withEstablished true (linkAt W l)
          else if bool_decide (l ∈ old)
               then withEstablished false (linkAt W l)
               else linkAt W l)
  ∧ MaxISLDistance W' = MaxISLDistance W
  ∧ PositionVector W' = PositionVector W
  ∧ ISLProtocolLinks W' = ISLProtocolLinks W.
Proof.
  unfold reconcile.
  pose proof (markTree_spec mst W) as Hmark.
  destruct (markTree mst W) as [W1 estSet]. simpl in Hmark.
  destruct Hmark as (Hset & Hlink1 & Hmax1 & Hpos1 & Hprot1).
  destruct (unmarkDropped_spec estSet old W1)
    as (Hlink2 & Hmax2 & Hpos2 & Hprot2).
  repeat split; try congruence.
  intros l. rewrite Hlink2, Hlink1, Hset.
  destruct (bool_decide (l ∈ mst)); simpl.
  - by rewrite andb_false_r.
  - rewrite andb_true_r. by destruct (bool_decide (l ∈ old)).
Qed.

(** C8. After a cache miss that returns, every link of the new tree has its
    established flag set, and every link that was established before the
    call and is not in the new tree has its flag cleared. *)
Theorem UpdateLinks_reconciles_flags W p a res W' p' :
  satellite p = Some a →
  position p ≠ PositionVector W a →
  UpdateLinks W p = (Returned res, W', p') →
  res = IslLinkRef <$> established p'
  ∧ (∀ l, l ∈ established p' → isEstablished (linkAt W' l) = true)
  ∧ (∀ l, l ∈ established p → l ∉ established p' →
          isEstablished (linkAt W' l) = false).
Proof.
  intros Hsat Hpos Hupd.
  destruct (UpdateLinks_miss W p a res W' p' Hsat Hpos Hupd)
    as (q & mst & _ & _ & -> & -> & ->).
  destruct (reconcile_spec mst (established p) W) as (Hlink & _).
  simpl. split; [done|]. split; intros l.
  - intros Hin. rewrite Hlink. by rewrite bool_decide_eq_true_2.
  - intros Hold Hnew. rewrite Hlink.
    rewrite bool_decide_eq_false_2; [|done].
    by rewrite bool_decide_eq_true_2.
Qed.

(** ** The cache *)

Lemma reconcile_PositionVector mst old W :
  PositionVector (reconcile mst old W) = PositionVector W.
Proof. by destruct (reconcile_spec mst old W) as (_ & _ & ? & _). Qed.

(** After a call that returns, the cached position is the position of the
    mounted satellite and the result is the established list. *)
Lemma UpdateLinks_Returned W p a res W' p' :
  satellite p = Some a →
  UpdateLinks W p = (Returned res, W', p') →
  satellite p' = Some a
  ∧ position p' = PositionVector W a
  ∧ PositionVector W' = PositionVector W
  ∧ res = IslLinkRef <$> established p'.
Proof.
  intros Hsat Hupd.
  destruct (decide (position p = PositionVector W a)) as [Hpos|Hpos].
  - rewrite (UpdateLinks_hit W p a Hsat Hpos) in Hupd.
    injection Hupd as <- <- <-. by simpl.
  - destruct (UpdateLinks_miss W p a res W' p' Hsat Hpos Hupd)
      as (q & mst & Hreach & _ & -> & -> & ->).
    destruct (loopReaches_sameFrame _ _ _ _ _ Hreach)
      as (_ & _ & Hs & _ & Hp & _).
    simpl in *. rewrite Hs, Hp, reconcile_PositionVector. done.
Qed.

(** C5. When [UpdateLinks] has returned on a mounted protocol and the
    position of the mounted satellite is the same at the next call (as it
    is in the world the first call leaves, and in any other world [W2] that
    agrees on that position), the next call returns the same links, changes
    nothing in the world, and leaves the protocol state as it was, the
    established list, the visited set, the queue and the cached position
    included, except that a pending readiness signal is drained. *)
Theorem UpdateLinks_twice_cache_hit W p a res W1 p1 :
  satellite p = Some a →
  UpdateLinks W p = (Returned res, W1, p1) →
  PositionVector W1 a = PositionVector W a
  ∧ ∀ W2, PositionVector W2 a = PositionVector W a →
      ∃ p2, UpdateLinks W2 p1 = (Returned res, W2, p2)
            ∧ p2 = set_readyCh false p1
            ∧ established p2 = established p1
            ∧ visited p2 = visited p1
            ∧ pq p2 = pq p1
            ∧ position p2 = position p1.
Proof.
  intros Hsat Hupd.
  destruct (UpdateLinks_Returned W p a res W1 p1 Hsat Hupd)
    as (Hsat1 & Hpos1 & HW1 & ->).
  split; [by rewrite HW1|].
  intros W2 HW2. exists (set_readyCh false p1).
  split; [|done]. apply (UpdateLinks_hit W2 p1 a); [done|]. congruence.
Qed.

(** ** What enters the queue *)

Lemma seedQueue_elem_of W ls (q : PQ.t) it :
  it ∈ seedQueue W ls q →
  it ∈ q
  ∨ ∃ l, it = (l, Distance (linkAt W l)) ∧ l ∈ ls
         ∧ Distance (linkAt W l) ≤ MaxISLDistance W.
Proof.
  unfold seedQueue. revert q.
  induction ls as [|x ls IH]; intros q; simpl; [by left|].
  intros Hin. apply IH in Hin as [Hin|(l & -> & Hl & Hd)].
  - destruct (Distance (linkAt W x) <=? MaxISLDistance W) eqn:Hle;
      [|by left].
    apply Enqueue_elem_of in Hin as [->|Hin]; [|by left].
    right. exists x. split; [done|]. split; [by left|]. by apply Z.leb_le in Hle.
  - right. exists l. split; [done|]. split; [by right|done].
Qed.

Lemma enqueueLinksOf_elem_of W vis ls (q : PQ.t) it :
  it ∈ enqueueLinksOf W vis ls q →
  it ∈ q
  ∨ ∃ l, it = (l, Distance (linkAt W l)) ∧ IslLinkRef l ∈ ls
         ∧ Distance (linkAt W l) ≤ MaxISLDistance W.
Proof.
  unfold enqueueLinksOf. revert q.
  induction ls as [|x ls IH]; intros q; simpl; [by left|].
  intros Hin. apply IH in Hin as [Hin|(l & -> & Hl & Hd)].
  - destruct x as [isl|o]; simpl in Hin; [|by left].
    destruct (Distance (linkAt W isl) <=? MaxISLDistance W) eqn:Hle;
      [|by left].
    destruct (negb _); [|by left].
    apply Enqueue_elem_of in Hin as [->|Hin]; [|by left].
    right. exists isl. split; [done|]. split; [by left|]. by apply Z.leb_le in Hle.
  - right. exists l. split; [done|]. split; [by right|done].
Qed.

Lemma beginPass_fields W a p :
  let p0 := beginPass W a p in
  links p0 = links p ∧ established p0 = established p
  ∧ satellite p0 = satellite p ∧ position p0 = PositionVector W a
  ∧ readyCh p0 = readyCh p
  ∧ satellites p0 = mapKeys (collectSatellites W (links p))
  ∧ visited p0 = <[Some a := true]> ∅
  ∧ pq p0 = seedQueue W (links p) [].
Proof. by repeat split. Qed.

Lemma withinRange_round W p mst p' mst' :
  withinRange W p mst → loopCond p mst = true →
  loopBody W p mst = Next p' mst' → withinRange W p' mst'.
Proof.
  intros [Hq Hm] Hc Hb.
  destruct (loopBody_cases W p mst Hc) as (link & d & q & Hpq & Hcases).
  assert (∀ l d', (l, d') ∈ q → Distance (linkAt W l) ≤ MaxISLDistance W)
    as Hq'.
  { intros l d' Hin. apply (Hq l d'). rewrite Hpq. by right. }
  destruct Hcases as [(_ & _ & Hskip)|[(a & ls & _ & Hls & Hadd)|[p0 Hp]]].
  - rewrite Hskip in Hb. injection Hb as <- <-. by split.
  - rewrite Hadd in Hb. injection Hb as <- <-. split; simpl.
    + intros l d' Hin.
      apply enqueueLinksOf_elem_of in Hin as [Hin|(l' & [= -> ->] & _ & Hd)];
        [by eapply Hq'|done].
    + intros l Hin. apply elem_of_app in Hin as [Hin|Hin]; [by apply Hm|].
      apply list_elem_of_singleton in Hin as ->.
      apply (Hq link d). rewrite Hpq. by left.
  - congruence.
Qed.

Lemma withinRange_beginPass W a p : withinRange W (beginPass W a p) [].
Proof.
  split; [|by intros l Hin; apply elem_of_nil in Hin].
  intros l d Hin. simpl in Hin.
  apply seedQueue_elem_of in Hin as [Hin|(l' & [= -> ->] & _ & Hd)];
    [by apply elem_of_nil in Hin|done].
Qed.

(** C4. On a cache miss, a link whose distance is greater than
    [MaxISLDistance] is in the queue in no state the loop passes through
    (the queue is cleared before it is seeded, and an item is put in the
    queue within the round that ends in the next such state), and when the
    call returns the link is neither in the result nor in the established
    list. *)
Theorem UpdateLinks_distance_filter W p a l :
  satellite p = Some a →
  position p ≠ PositionVector W a →
  MaxISLDistance W < Distance (linkAt W l) →
  (∀ q mst d, loopReaches W (beginPass W a p) [] q mst → (l, d) ∉ pq q)
  ∧ (∀ res W' p', UpdateLinks W p = (Returned res, W', p') →
       (IslLinkRef l ∉ res) ∧ (l ∉ established p')).
Proof.
  intros Hsat Hpos Hfar.
  assert (∀ q mst, loopReaches W (beginPass W a p) [] q mst →
                   withinRange W q mst) as Hinv.
  { intros q mst Hreach.
    apply (loopReaches_invariant W (withinRange W)) in Hreach;
      [done|apply withinRange_round|apply withinRange_beginPass]. }
  split.
  - intros q mst d Hreach Hin.
    destruct (Hinv q mst Hreach) as [Hq _]. specialize (Hq l d Hin). lia.
  - intros res W' p' Hupd.
    destruct (UpdateLinks_miss W p a res W' p' Hsat Hpos Hupd)
      as (q & mst & Hreach & _ & -> & -> & ->).
    destruct (Hinv q mst Hreach) as [_ Hm]. simpl.
    assert (l ∉ mst) as Hnot by (intros Hin; specialize (Hm l Hin); lia).
    split; [|done].
    intros Hin. apply list_elem_of_fmap in Hin as (l' & [= ->] & Hin). done.
Qed.

(** ** Trails and cycles *)

Lemma joins_sym W l u v : joins W l u v → joins W l v u.
Proof. unfold joins. tauto. Qed.

Lemma joins_touches W l u v : joins W l u v → touches W l u ∧ touches W l v.
Proof. unfold joins, touches. tauto. Qed.

Lemma joins_other W l u v x y :
  joins W l u v → joins W l x y → u ≠ x → u = y ∧ v = x.
Proof. unfold joins. intros [[??]|[??]] [[??]|[??]] ?; split; congruence. Qed.

Lemma touches_joins W l u v x :
  joins W l u v → touches W l x → x = u ∨ x = v.
Proof. unfold joins, touches. intros [[<- <-]|[<- <-]] [<-|<-]; auto. Qed.

Lemma trail_weaken W E E' u ls w :
  (∀ l, l ∈ E → l ∈ E') → trail W E u ls w → trail W E' u ls w.
Proof.
  intros Hsub. induction 1 as [|u l v ls w Hin Hj _ IH]; [constructor|].
  econstructor; eauto.
Qed.

Lemma trail_same_endpoints W W' E u ls w :
  (∀ l, Node1 (linkAt W' l) = Node1 (linkAt W l)
        ∧ Node2 (linkAt W' l) = Node2 (linkAt W l)) →
  trail W' E u ls w → trail W E u ls w.
Proof.
  intros Hsame. induction 1 as [|u l v ls w Hin Hj _ IH]; [constructor|].
  econstructor; [done| |done].
  unfold joins in *. destruct (Hsame l) as [<- <-]. done.
Qed.

Section HangOneNode.
(** A link [l] that hangs a new node [v] on the links [E]. *)
Variables (W : World) (E : list LinkPtr) (l : LinkPtr) (v w : INode).
Hypothesis Hjoins : joins W l v w.
Hypothesis Hdistinct : v ≠ w.
Hypothesis Hfresh : ∀ e, e ∈ E → ¬ touches W e v.

Lemma hang_not_in : l ∉ E.
Proof.
  intros Hin. apply (Hfresh l Hin).
  by destruct (joins_touches W l v w Hjoins).
Qed.

Lemma trail_without x ls y :
  trail W (E ++ [l]) x ls y → l ∉ ls → trail W E x ls y.
Proof.
  induction 1 as [|x e m ls y Hin Hj _ IH]; intros Hnot; [constructor|].
  apply not_elem_of_cons in Hnot as [Hne Hnot].
  econstructor; [|done|by apply IH].
  apply elem_of_app in Hin as [Hin|Hin]; [done|].
  apply list_elem_of_singleton in Hin. congruence.
Qed.

Lemma trail_keeps_off x ls y : trail W E x ls y → x ≠ v → y ≠ v.
Proof.
  induction 1 as [|x e m ls y Hin Hj _ IH]; intros Hx; [done|].
  apply IH. intros ->. apply (Hfresh e Hin).
  by apply joins_touches in Hj as [_ ?].
Qed.

Lemma trail_from_new ls y : trail W E v ls y → ls = [].
Proof.
  inversion 1 as [|x e m ls' y' Hin Hj _]; [done|]. subst.
  exfalso. apply (Hfresh e Hin). by apply joins_touches in Hj as [? _].
Qed.

Lemma trail_avoids_new x ls y :
  trail W (E ++ [l]) x ls y → NoDup ls → x ≠ v → y ≠ v → l ∉ ls.
Proof.
  induction 1 as [|x e m ls y Hin Hj Hrest IH]; intros Hnd Hx Hy.
  - apply not_elem_of_nil.
  - apply NoDup_cons in Hnd as [Hfirst Hnd].
    destruct (decide (e = l)) as [->|Hne].
    + exfalso.
      destruct (joins_other W l x m v w Hj Hjoins Hx) as [-> ->].
      apply trail_without in Hrest; [|done].
      pose proof (trail_from_new _ _ Hrest) as ->.
      inversion Hrest. congruence.
    + apply not_elem_of_cons. split; [done|].
      apply IH; [done| |done].
      intros ->. apply elem_of_app in Hin as [Hin|Hin].
      * apply (Hfresh e Hin). by apply joins_touches in Hj as [_ ?].
      * apply list_elem_of_singleton in Hin. congruence.
Qed.

Lemma hang_no_cycle : ¬ hasCycle W E → ¬ hasCycle W (E ++ [l]).
Proof.
  intros Hacyc (u & ls & Hne & Hnd & Htrail).
  destruct (decide (u = v)) as [->|Hu].
  - inversion Htrail as [|x e m ls' y Hin Hj Hrest]; [congruence|]. subst.
    apply NoDup_cons in Hnd as [Hfirst Hnd].
    assert (e = l) as ->.
    { apply elem_of_app in Hin as [Hin|Hin].
      - exfalso. apply (Hfresh e Hin).
        by apply joins_touches in Hj as [? _].
      - by apply list_elem_of_singleton in Hin. }
    assert (m = w) as ->.
    { pose proof Hjoins as Hj2. pose proof Hdistinct as Hvw.
      destruct Hj as [[H1 H2]|[H1 H2]], Hj2 as [[H3 H4]|[H3 H4]];
        congruence. }
    apply trail_without in Hrest; [|done].
    apply trail_keeps_off in Hrest; [done|congruence].
  - apply Hacyc. exists u, ls. repeat split; [done..|].
    apply trail_without; [done|].
    by eapply trail_avoids_new.
Qed.
End HangOneNode.

Lemma grown_NoDup W E : grown W E → NoDup E.
Proof.
  induction 1 as [|E l v w _ IH Hj Hvw Hfresh]; [constructor|].
  apply NoDup_app. split; [done|]. split; [|apply NoDup_singleton].
  intros e Hin Hl. apply list_elem_of_singleton in Hl as ->.
  by eapply (hang_not_in W E l v w).
Qed.

(** A list of links grown node by node has no cycle. *)
Lemma grown_no_cycle W E : grown W E → ¬ hasCycle W E.
Proof.
  induction 1 as [|E l v w _ IH Hj Hvw Hfresh].
  - intros (u & ls & Hne & _ & Htrail).
    inversion Htrail as [|x e m ls' y Hin]; [congruence|].
    by apply elem_of_nil in Hin.
  - by eapply hang_no_cycle.
Qed.

(** ** Where the links of the tree come from *)

Lemma mapGet_insert_mono (vis : gmap SatPtr bool) k k' :
  mapGet vis k' = true → mapGet (<[k := true]> vis) k' = true.
Proof. intros Hv. rewrite mapGet_insert. by destruct (decide (k = k')). Qed.

Lemma fromLists_mono W own vis k l :
  fromLists W own vis l → fromLists W own (<[k := true]> vis) l.
Proof.
  intros [Hown|(b & ls & Hb & Hls & Hin)]; [by left|].
  right. exists b, ls. split; [by apply mapGet_insert_mono|done].
Qed.

Lemma sourced_round W own p mst p' mst' :
  sourced W own p mst → loopCond p mst = true →
  loopBody W p mst = Next p' mst' → sourced W own p' mst'.
Proof.
  intros [Hq Hm] Hc Hb.
  destruct (loopBody_cases W p mst Hc) as (link & d & q & Hpq & Hcases).
  assert (∀ l d', (l, d') ∈ q → fromLists W own (visited p) l) as Hq'.
  { intros l d' Hin. apply (Hq l d'). rewrite Hpq. by right. }
  destruct Hcases as [(_ & _ & Hskip)|[(a & ls & _ & Hls & Hadd)|[p0 Hp]]].
  - rewrite Hskip in Hb. injection Hb as <- <-. by split.
  - rewrite Hadd in Hb. injection Hb as <- <-. split; simpl.
    + intros l d' Hin.
      apply enqueueLinksOf_elem_of in Hin as [Hin|(l' & [= -> ->] & Hin & _)].
      * apply fromLists_mono. by eapply Hq'.
      * right. exists a, ls. split; [|done].
        rewrite mapGet_insert. by rewrite decide_True.
    + intros l Hin. apply fromLists_mono.
      apply elem_of_app in Hin as [Hin|Hin]; [by apply Hm|].
      apply list_elem_of_singleton in Hin as ->.
      apply (Hq link d). rewrite Hpq. by left.
  - congruence.
Qed.

Lemma sourced_beginPass W a p : sourced W (links p) (beginPass W a p) [].
Proof.
  split; [|by intros l Hin; apply elem_of_nil in Hin].
  intros l d Hin. simpl in Hin.
  apply seedQueue_elem_of in Hin as [Hin|(l' & [= -> ->] & Hin & _)];
    [by apply elem_of_nil in Hin|by left].
Qed.

(** C3, as the code has it. After a cache miss that returns, every link of
    the established list is an element of the protocol's own candidate list
    or of the list that the protocol of a satellite visited in this pass
    returns from [Links()]. *)
Theorem UpdateLinks_established_from_lists W p a res W' p' :
  satellite p = Some a →
  position p ≠ PositionVector W a →
  UpdateLinks W p = (Returned res, W', p') →
  ∀ l, l ∈ established p' →
    l ∈ links p'
    ∨ ∃ b ls, mapGet (visited p') (Some b) = true
              ∧ ISLProtocolLinks W !! b = Some ls ∧ IslLinkRef l ∈ ls.
Proof.
  intros Hsat Hpos Hupd l Hin.
  destruct (UpdateLinks_miss W p a res W' p' Hsat Hpos Hupd)
    as (q & mst & Hreach & _ & -> & -> & ->).
  pose proof (loopReaches_sameFrame _ _ _ _ _ Hreach) as (Hlinks & _).
  apply (loopReaches_invariant W (sourced W (links p))) in Hreach;
    [|apply sourced_round|apply sourced_beginPass].
  destruct Hreach as [_ Hm]. simpl in *.
  rewrite Hlinks. by apply Hm.
Qed.

(** ** The tree *)

Lemma counted_round W p mst p' mst' :
  counted p mst → loopCond p mst = true →
  loopBody W p mst = Next p' mst' → counted p' mst'.
Proof.
  intros [Htrue Hsize] Hc Hb.
  destruct (loopBody_cases W p mst Hc) as (link & d & q & Hpq & Hcases).
  destruct Hcases as [(_ & _ & Hskip)|[(a & ls & Hnew & _ & Hadd)|[p0 Hp]]].
  - rewrite Hskip in Hb. injection Hb as <- <-. by split.
  - rewrite Hadd in Hb. injection Hb as <- <-.
    assert (mapGet (visited p) (Some a) = false) as Hfresh.
    { by destruct Hnew as [[Hv Hs]|(_ & Hv & Hs)]; rewrite Hs in Hv. }
    assert (visited p !! Some a = None) as Hnone.
    { unfold mapGet in Hfresh.
      destruct (visited p !! Some a) as [b|] eqn:Hlook; [|done].
      apply Htrue in Hlook as ->. done. }
    split; simpl.
    + intros k b. rewrite lookup_insert.
      destruct (decide (Some a = k)); [congruence|apply Htrue].
    + rewrite length_app, map_size_insert_None; [|done]. simpl. lia.
  - congruence.
Qed.

Lemma counted_beginPass W a p : counted (beginPass W a p) [].
Proof.
  split; simpl.
  - intros k b. rewrite lookup_insert.
    destruct (decide (Some a = k)); [congruence|by rewrite lookup_empty].
  - by rewrite map_size_insert_None, map_size_empty.
Qed.

Lemma asSatellite_Some n a : asSatellite n = Some a → n = SatelliteNode a.
Proof. destruct n; simpl; congruence. Qed.

Section IncidentLists.
(** Every protocol lists only links that have its own satellite as an
    endpoint: the protocol under study, mounted on [a] with the candidate
    list [own], and the protocols of the other satellites. *)
Variables (W : World) (a : nat) (own : list LinkPtr).
Hypothesis Hown : ∀ l, l ∈ own → incident W l a.
Hypothesis Hothers :
  ∀ b ls l, ISLProtocolLinks W !! b = Some ls → IslLinkRef l ∈ ls →
            incident W l b.

Lemma treeInv_round p mst p' mst' :
  treeInv W p mst → loopCond p mst = true →
  loopBody W p mst = Next p' mst' → treeInv W p' mst'.
Proof.
  intros (Hq & Hends & Hgrown) Hc Hb.
  destruct (loopBody_cases W p mst Hc) as (link & d & q & Hpq & Hcases).
  assert (∀ l d', (l, d') ∈ q →
            ∃ b, mapGet (visited p) (Some b) = true ∧ incident W l b) as Hq'.
  { intros l d' Hin. apply (Hq l d'). rewrite Hpq. by right. }
  destruct Hcases as [(_ & _ & Hskip)|[(n & ls & Hnew & Hls & Hadd)|[p0 Hp]]].
  - rewrite Hskip in Hb. injection Hb as <- <-. by repeat split.
  - rewrite Hadd in Hb. injection Hb as <- <-.
    destruct (Hq link d) as (b & Hb & Hinc); [rewrite Hpq; by left|].
    assert (mapGet (visited p) (Some n) = false
            ∧ joins W link (SatelliteNode n) (SatelliteNode b)) as [Hn Hj].
    { destruct Hnew as [[Hv Hs]|(_ & Hv & Hs)]; rewrite Hs in Hv;
        apply asSatellite_Some in Hs; (split; [done|]).
      - destruct Hinc as [H1|H2]; [|by left].
        rewrite Hs in H1. injection H1 as ->. congruence.
      - destruct Hinc as [H1|H2]; [by right|].
        rewrite Hs in H2. injection H2 as ->. congruence. }
    assert (n ≠ b) as Hnb by (intros ->; congruence).
    repeat split; simpl.
    + intros l d' Hin.
      apply enqueueLinksOf_elem_of in Hin as [Hin|(l' & [= -> ->] & Hin & _)].
      * destruct (Hq' l d' Hin) as (b' & Hb' & Hinc').
        exists b'. split; [by apply mapGet_insert_mono|done].
      * exists n. split; [|by eapply Hothers].
        rewrite mapGet_insert. by rewrite decide_True.
    + intros l v Hin Ht. apply elem_of_app in Hin as [Hin|Hin].
      * destruct (Hends l v Hin Ht) as (b' & -> & Hb').
        exists b'. split; [done|by apply mapGet_insert_mono].
      * apply list_elem_of_singleton in Hin as ->.
        destruct (touches_joins W link _ _ v Hj Ht) as [-> | ->].
        -- exists n. split; [done|].
           rewrite mapGet_insert. by rewrite decide_True.
        -- exists b. split; [done|by apply mapGet_insert_mono].
    + apply (grown_snoc W mst link (SatelliteNode n) (SatelliteNode b));
        [done|done|congruence|].
      intros e Hin Ht. destruct (Hends e _ Hin Ht) as (b' & [= <-] & Hb').
      congruence.
  - congruence.
Qed.

Lemma treeInv_beginPass p : links p = own → treeInv W (beginPass W a p) [].
Proof.
  intros Hlinks. repeat split; simpl.
  - intros l d Hin.
    apply seedQueue_elem_of in Hin as [Hin|(l' & [= -> ->] & Hin & _)];
      [by apply elem_of_nil in Hin|].
    exists a. split; [|apply Hown; congruence].
    rewrite mapGet_insert. by rewrite decide_True.
  - intros l v Hin. by apply elem_of_nil in Hin.
  - constructor.
Qed.

End IncidentLists.

Lemma reconcile_endpoints mst old W l :
  Node1 (linkAt (reconcile mst old W) l) = Node1 (linkAt W l)
  ∧ Node2 (linkAt (reconcile mst old W) l) = Node2 (linkAt W l)
  ∧ Distance (linkAt (reconcile mst old W) l) = Distance (linkAt W l).
Proof.
  destruct (reconcile_spec mst old W) as (Hlink & _). rewrite Hlink.
  destruct (bool_decide (l ∈ mst)); [done|].
  by destruct (bool_decide (l ∈ old)).
Qed.

(** ** Calls that return *)

Lemma primLoop_Panic fuel W p mst q m :
  primLoop fuel W p mst = Some (Panic q m) →
  ∃ p1 mst1, loopReaches W p mst p1 mst1 ∧ loopCond p1 mst1 = true
             ∧ loopBody W p1 mst1 = Panic q m.
Proof.
  revert p mst. induction fuel as [|fuel IH]; intros p mst; simpl; [done|].
  destruct (loopCond p mst) eqn:Hc; [|done].
  destruct (loopBody W p mst) as [p1 mst1|p1 mst1|p1 mst1] eqn:Hb.
  - intros Hrec. destruct (IH _ _ Hrec) as (p2 & mst2 & Hreach & Hrest).
    exists p2, mst2. split; [by eapply reaches_round|done].
  - done.
  - intros [= <- <-]. exists p, mst. split; [constructor|done].
Qed.

Lemma allUsable_round W a p mst p' mst' :
  (∀ b ls l, ISLProtocolLinks W !! b = Some ls → IslLinkRef l ∈ ls →
             usable W a l) →
  allUsable W a p mst → loopCond p mst = true →
  loopBody W p mst = Next p' mst' → allUsable W a p' mst'.
Proof.
  intros Hothers [Ha Hq] Hc Hb.
  destruct (loopBody_cases W p mst Hc) as (link & d & q & Hpq & Hcases).
  assert (∀ l d', (l, d') ∈ q → usable W a l) as Hq'.
  { intros l d' Hin. apply (Hq l d'). rewrite Hpq. by right. }
  destruct Hcases as [(_ & _ & Hskip)|[(n & ls & _ & Hls & Hadd)|[p0 Hp]]].
  - rewrite Hskip in Hb. injection Hb as <- <-. by split.
  - rewrite Hadd in Hb. injection Hb as <- <-. split; simpl.
    + by apply mapGet_insert_mono.
    + intros l d' Hin.
      apply enqueueLinksOf_elem_of in Hin as [Hin|(l' & [= -> ->] & Hin & _)];
        [by eapply Hq'|by eapply Hothers].
  - congruence.
Qed.

Lemma allUsable_no_Panic W a p mst q m :
  allUsable W a p mst → loopCond p mst = true →
  loopBody W p mst ≠ Panic q m.
Proof.
  intros [Ha Hq] Hc Hb.
  unfold loopCond, PQ.Len in Hc. apply andb_prop in Hc as [_ Hlen].
  apply Z.ltb_lt in Hlen.
  destruct (pq p) as [|[link d] rest] eqn:Hpq; simpl in Hlen; [lia|].
  assert (usable W a link) as Huse by (apply (Hq link d); by left).
  destruct (Huse (Node1 (linkAt W link))) as (b1 & H1 & Hp1); [by left|].
  destruct (Huse (Node2 (linkAt W link))) as (b2 & H2 & Hp2); [by right|].
  unfold loopBody in Hb. rewrite Hpq in Hb. simpl in Hb.
  rewrite H1, H2 in Hb. simpl in Hb.
  destruct (mapGet (visited p) (Some b1)) eqn:Hv1; simpl in Hb.
  - destruct (mapGet (visited p) (Some b2)) eqn:Hv2; simpl in Hb; [done|].
    destruct Hp2 as [->|[ls Hls]]; [congruence|]. by rewrite Hls in Hb.
  - destruct Hp1 as [->|[ls Hls]]; [congruence|]. by rewrite Hls in Hb.
Qed.

(** X14. No nil dereference: on a mounted protocol [UpdateLinks] does not
    panic when every link of its own candidate list and of the other
    protocols' lists joins two satellites, each of them the mounted one or
    one with a protocol. Whether the calls of [Links()] on the other
    protocols, which take their locks, come back is not part of this
    sequential reading and is not stated. *)
Theorem UpdateLinks_no_nil_dereference W p a :
  satellite p = Some a →
  (∀ l, l ∈ links p → usable W a l) →
  (∀ b ls l, ISLProtocolLinks W !! b = Some ls → IslLinkRef l ∈ ls →
             usable W a l) →
  (UpdateLinks W p).1.1 ≠ Panicked.
Proof.
  intros Hsat Hown Hothers.
  destruct (decide (position p = PositionVector W a)) as [Hpos|Hpos].
  { by rewrite (UpdateLinks_hit W p a Hsat Hpos). }
  pose proof (runLoop_primLoop W (beginPass W a p) []) as Hrun.
  destruct (runLoop W (beginPass W a p) []) as [q m|q m|q m] eqn:Hres.
  - by apply runLoop_not_Next in Hres.
  - apply runLoop_Exit in Hres as [Hreach Hstop].
    by rewrite (UpdateLinks_miss_returns W p a q m Hsat Hpos Hreach Hstop).
  - exfalso. apply primLoop_Panic in Hrun as (p1 & m1 & Hreach & Hc & Hb).
    apply (allUsable_no_Panic W a p1 m1 q m); [|done..].
    apply (loopReaches_invariant W (allUsable W a)) in Hreach;
      [done| |].
    { intros p2 m2 p3 m3 HI Hc' Hb'.
      exact (allUsable_round W a p2 m2 p3 m3 Hothers HI Hc' Hb'). }
    split; simpl.
    + rewrite mapGet_insert. by rewrite decide_True.
    + intros l d Hin.
      apply seedQueue_elem_of in Hin as [Hin|(l' & [= -> ->] & Hin & _)];
        [by apply elem_of_nil in Hin|by apply Hown].
Qed.

(** ** Running the loop on given inputs *)

Lemma primLoop_more_fuel W n m p mst r :
  primLoop n W p mst = Some r → (n ≤ m)%nat → primLoop m W p mst = Some r.
Proof.
  revert m p mst. induction n as [|n IH]; intros m p mst; simpl; [done|].
  intros Hrun Hle. destruct m as [|m]; [lia|]. simpl.
  destruct (loopCond p mst); [|done].
  destruct (loopBody W p mst); [|done..].
  apply IH; [done|lia].
Qed.

Lemma runLoop_fuel W n p mst r :
  primLoop n W p mst = Some r → runLoop W p mst = r.
Proof.
  intros Hrun. pose proof (runLoop_primLoop W p mst) as Hfull.
  set (k := S (loopMeasure W p mst)) in *.
  apply (primLoop_more_fuel W n (n `max` k)%nat) in Hrun; [|lia].
  apply (primLoop_more_fuel W k (n `max` k)%nat) in Hfull; [|lia].
  congruence.
Qed.

Lemma UpdateLinks_miss_fuel n W p a q mst :
  satellite p = Some a → position p ≠ PositionVector W a →
  primLoop n W (beginPass W a p) [] = Some (Exit q mst) →
  UpdateLinks W p
  = (Returned (IslLinkRef <$> mst), reconcile mst (established p) W,
     set_readyCh true (set_established mst q)).
Proof.
  intros Hsat Hpos Hrun. apply runLoop_fuel, runLoop_Exit in Hrun as [? ?].
  by apply (UpdateLinks_miss_returns W p a).
Qed.

Lemma triple_eta {A B C} (x : A * B * C) : x = (x.1.1, x.1.2, x.2).
Proof. by destruct x as [[? ?] ?]. Qed.

(** Runs the loop of a cache miss with [n] rounds of fuel and rewrites the
    call with what it returns. *)
Ltac run_miss n W p a Hpos :=
  let t := eval vm_compute in (primLoop n W (beginPass W a p) []) in
  let Hrun := fresh "Hrun" in
  assert (Hrun : primLoop n W (beginPass W a p) [] = t)
    by (vm_compute; reflexivity);
  rewrite (UpdateLinks_miss_fuel n W p a _ _ eq_refl Hpos Hrun);
  clear Hrun.

Lemma not_elem_of_two (x y z : nat) : x ≠ y → x ≠ z → x ∉ [y; z].
Proof.
  intros Hy Hz Hin. apply elem_of_cons in Hin as [?|Hin]; [done|].
  apply elem_of_cons in Hin as [?|Hin]; [done|]. by apply elem_of_nil in Hin.
Qed.

(** ** The example scenario *)

(** The example with the links listed per satellite. A's protocol has the
    links A-B (10) and A-C (50) as its candidates, in either order, B's
    protocol lists A-B and B-C (5), in either order, C's protocol lists
    anything, the maximum range is 100 and the cached position is not the
    current one; whichever endpoint of each link is [Node1] and whatever
    state the protocol was in before, [UpdateLinks] returns A-B followed by
    B-C, of total weight 15, and the link A-C is not in the established
    list. *)
Theorem UpdateLinks_example_scenario (oab oac obc swapA swapB : bool)
    (lsC : list ILink) (cur : Vector) (p0 : Protocol) :
  position p0 ≠ cur →
  let W := scenarioWorld oab oac obc cur
             (if swapB then [IslLinkRef linkBC; IslLinkRef linkAB]
              else [IslLinkRef linkAB; IslLinkRef linkBC]) lsC in
  let p := set_links (if swapA then [linkAC; linkAB] else [linkAB; linkAC])
             (set_satellite (Some satA) p0) in
  ∃ W' p',
    UpdateLinks W p = (Returned [IslLinkRef linkAB; IslLinkRef linkBC], W', p')
    ∧ established p' = [linkAB; linkBC]
    ∧ Distance (linkAt W linkAB) + Distance (linkAt W linkBC) = 15
    ∧ linkAC ∉ established p'.
Proof.
  intros Hpos W p.
  assert (position p ≠ PositionVector W satA) as Hmiss by exact Hpos.
  assert (Distance (linkAt W linkAB) + Distance (linkAt W linkBC) = 15)
    as Hweight by (by destruct oab, obc).
  destruct oab, oac, obc, swapA, swapB;
    run_miss 3%nat W p satA Hmiss;
    (eexists; eexists; split; [reflexivity|]);
    (split; [reflexivity|]); (split; [exact Hweight|]);
    by apply not_elem_of_two.
Qed.

Lemma UpdateLinks_example_scenario_witness :
  position staleProtocol ≠ mkVector 0 0 0
  ∧ ∃ W' p',
      UpdateLinks
        (scenarioWorld true true true (mkVector 0 0 0)
           [IslLinkRef linkAB; IslLinkRef linkBC]
           [IslLinkRef linkAC; IslLinkRef linkBC])
        (set_links [linkAB; linkAC] (set_satellite (Some satA) staleProtocol))
      = (Returned [IslLinkRef linkAB; IslLinkRef linkBC], W', p')
      ∧ established p' = [linkAB; linkBC]
      ∧ Distance (linkAt (scenarioWorld true true true (mkVector 0 0 0)
                            [IslLinkRef linkAB; IslLinkRef linkBC]
                            [IslLinkRef linkAC; IslLinkRef linkBC]) linkAB)
        + Distance (linkAt (scenarioWorld true true true (mkVector 0 0 0)
                              [IslLinkRef linkAB; IslLinkRef linkBC]
                              [IslLinkRef linkAC; IslLinkRef linkBC]) linkBC)
        = 15
      ∧ linkAC ∉ established p'.
Proof.
  assert (position staleProtocol ≠ mkVector 0 0 0) as Hpos
    by (vm_compute; discriminate).
  split; [exact Hpos|].
  exact (UpdateLinks_example_scenario true true true false false
           [IslLinkRef linkAC; IslLinkRef linkBC] (mkVector 0 0 0)
           staleProtocol Hpos).
Defined.

(** C1. The example scenario on the code: with A-B (10), A-C (50) and B-C
    (5) added as candidates of A's protocol, the protocols of B and C without
    candidates, a maximum range of 100 and a cached position that is not the
    current one, [UpdateLinks] returns B-C followed by A-C, of total weight
    55, where the minimum spanning tree is A-B with B-C, of weight 15. B-C
    is dequeued first with neither end visited and only its [Node1], B, is
    marked; A-B is then skipped, both its ends being visited, and A-C is
    taken. *)
Lemma UpdateLinks_example_all_on_A :
  satellite allLinksOnA = Some satA
  ∧ links allLinksOnA = [linkAB; linkAC; linkBC]
  ∧ position allLinksOnA ≠ PositionVector bareWorld satA
  ∧ MaxISLDistance bareWorld = 100
  ∧ (UpdateLinks bareWorld allLinksOnA).1.1
    = Returned [IslLinkRef linkBC; IslLinkRef linkAC]
  ∧ established (UpdateLinks bareWorld allLinksOnA).2 = [linkBC; linkAC]
  ∧ linkAC ∈ established (UpdateLinks bareWorld allLinksOnA).2
  ∧ linkAB ∉ established (UpdateLinks bareWorld allLinksOnA).2.
Proof.
  assert (established (UpdateLinks bareWorld allLinksOnA).2
          = [linkBC; linkAC]) as Hest by (vm_compute; reflexivity).
  rewrite Hest.
  repeat split; try (vm_compute; reflexivity).
  - vm_compute. discriminate.
  - apply elem_of_cons. right. by left.
  - by apply not_elem_of_two.
Qed.

(** The same, when the protocols of B and C list the links that touch them:
    B-C enters the queue a second time from B's list and is taken twice. *)
Lemma UpdateLinks_example_all_on_A_twice :
  (UpdateLinks incidentWorld allLinksOnA).1.1
  = Returned [IslLinkRef linkBC; IslLinkRef linkBC].
Proof. vm_compute. reflexivity. Qed.

(** With [Node1] and [Node2] of B-C exchanged the same candidates give B-C
    followed by A-B: the result depends on which end of a link is
    [Node1]. *)
Lemma UpdateLinks_example_all_on_A_swapped :
  (UpdateLinks (scenarioWorld true true false (mkVector 1 0 0) [] [])
     allLinksOnA).1.1
  = Returned [IslLinkRef linkBC; IslLinkRef linkAB].
Proof. vm_compute. reflexivity. Qed.

(** C2. A cache miss whose established set has a cycle: with B-C (1),
    B-D (2), C-D (3) and A-B (10) added as candidates of A's protocol, all
    within range, [UpdateLinks] returns B-C, B-D and C-D, which close a
    cycle through B, C and D, and leaves A-B out. Each of the three links
    is taken with one end unvisited, because taking B-C with neither end
    visited marks B and leaves C unmarked. *)
Lemma UpdateLinks_triangle_cycle :
  satellite triangleProtocol = Some satA
  ∧ position triangleProtocol ≠ PositionVector triangleWorld satA
  ∧ (UpdateLinks triangleWorld triangleProtocol).1.1
    = Returned [IslLinkRef 0%nat; IslLinkRef 1%nat; IslLinkRef 2%nat]
  ∧ hasCycle (UpdateLinks triangleWorld triangleProtocol).1.2
             (established (UpdateLinks triangleWorld triangleProtocol).2).
Proof.
  assert (established (UpdateLinks triangleWorld triangleProtocol).2
          = [0; 1; 2]%nat) as Hest by (vm_compute; reflexivity).
  rewrite Hest.
  repeat split; try (vm_compute; reflexivity).
  - vm_compute. discriminate.
  - exists (SatelliteNode satB), [0; 2; 1]%nat.
    repeat split.
    + discriminate.
    + apply NoDup_cons. split; [by apply not_elem_of_two|].
      apply NoDup_cons. split; [|apply NoDup_singleton].
      intros Hin. apply list_elem_of_singleton in Hin. discriminate.
    + apply (trail_go _ _ _ 0%nat (SatelliteNode satC));
        [by left|left; split; vm_compute; reflexivity|].
      apply (trail_go _ _ _ 2%nat (SatelliteNode satD));
        [by right; right; left|left; split; vm_compute; reflexivity|].
      apply (trail_go _ _ _ 1%nat (SatelliteNode satB));
        [by right; left|right; split; vm_compute; reflexivity|].
      constructor.
Qed.

(** On a path A, B, C, D with the links listed per satellite, all within
    range, A's protocol establishes A-B and stops: its satellite list holds
    the ends of its own candidates only, A and B, and the loop ends at one
    link. *)
Lemma UpdateLinks_path_stops_early :
  satellite pathProtocol = Some satA
  ∧ position pathProtocol ≠ PositionVector pathWorld satA
  ∧ (UpdateLinks pathWorld pathProtocol).1.1 = Returned [IslLinkRef 0%nat].
Proof.
  repeat split; try (vm_compute; reflexivity). vm_compute. discriminate.
Qed.

(** C3 as stated fails when the protocols list the links that touch their
    own satellite: B-C is established and is no candidate of A's protocol,
    it comes from the list of B's protocol. *)
Lemma UpdateLinks_established_from_neighbour :
  satellite ownLinksOnA = Some satA
  ∧ position ownLinksOnA ≠ PositionVector incidentWorld satA
  ∧ links ownLinksOnA = [linkAB; linkAC]
  ∧ (UpdateLinks incidentWorld ownLinksOnA).1.1
    = Returned [IslLinkRef linkAB; IslLinkRef linkBC]
  ∧ linkBC ∈ established (UpdateLinks incidentWorld ownLinksOnA).2
  ∧ linkBC ∉ links (UpdateLinks incidentWorld ownLinksOnA).2.
Proof.
  assert (established (UpdateLinks incidentWorld ownLinksOnA).2
          = [linkAB; linkBC]) as Hest by (vm_compute; reflexivity).
  assert (links (UpdateLinks incidentWorld ownLinksOnA).2
          = [linkAB; linkAC]) as Hlinks by (vm_compute; reflexivity).
  rewrite Hest, Hlinks.
  repeat split; try (vm_compute; reflexivity).
  - vm_compute. discriminate.
  - apply elem_of_cons. right. by left.
  - by apply not_elem_of_two.
Qed.

(** ** The theorems at work on the example *)

Lemma incidentWorld_miss W :
  PositionVector W = PositionVector incidentWorld →
  position ownLinksOnA ≠ PositionVector W satA.
Proof. intros ->. vm_compute. discriminate. Qed.

Lemma incidentWorld_own l : l ∈ links ownLinksOnA → incident incidentWorld l satA.
Proof.
  intros Hin. apply elem_of_cons in Hin as [->|Hin]; [by left|].
  apply list_elem_of_singleton in Hin as ->. by left.
Qed.

Lemma incidentWorld_others b ls l :
  ISLProtocolLinks incidentWorld !! b = Some ls → IslLinkRef l ∈ ls →
  incident incidentWorld l b.
Proof.
  simpl. rewrite lookup_insert.
  destruct (decide (satB = b)) as [<-|_].
  - intros [= <-] Hin. apply elem_of_cons in Hin as [[= ->]|Hin]; [by right|].
    apply list_elem_of_singleton in Hin as [= ->]. by left.
  - rewrite lookup_insert. destruct (decide (satC = b)) as [<-|_]; [|done].
    intros [= <-] Hin. apply elem_of_cons in Hin as [[= ->]|Hin]; [by right|].
    apply list_elem_of_singleton in Hin as [= ->]. by right.
Qed.

Lemma UpdateLinks_incidentWorld :
  UpdateLinks incidentWorld ownLinksOnA
  = (Returned [IslLinkRef linkAB; IslLinkRef linkBC],
     (UpdateLinks incidentWorld ownLinksOnA).1.2,
     (UpdateLinks incidentWorld ownLinksOnA).2).
Proof.
  assert ((UpdateLinks incidentWorld ownLinksOnA).1.1
          = Returned [IslLinkRef linkAB; IslLinkRef linkBC]) as <-
    by (vm_compute; reflexivity).
  apply triple_eta.
Qed.

Lemma UpdateLinks_not_mounted_witness :
  satellite NewIslSatelliteCentricMstProtocol = None
  ∧ ∃ err, UpdateLinks incidentWorld NewIslSatelliteCentricMstProtocol
           = (Failed err, incidentWorld, NewIslSatelliteCentricMstProtocol).
Proof.
  split; [reflexivity|].
  exact (UpdateLinks_not_mounted incidentWorld
           NewIslSatelliteCentricMstProtocol eq_refl).
Defined.

Lemma UpdateLinks_established_from_lists_witness :
  satellite ownLinksOnA = Some satA
  ∧ position ownLinksOnA ≠ PositionVector incidentWorld satA
  ∧ UpdateLinks incidentWorld ownLinksOnA
    = (Returned [IslLinkRef linkAB; IslLinkRef linkBC],
       (UpdateLinks incidentWorld ownLinksOnA).1.2,
       (UpdateLinks incidentWorld ownLinksOnA).2)
  ∧ ∀ l, l ∈ established (UpdateLinks incidentWorld ownLinksOnA).2 →
      l ∈ links (UpdateLinks incidentWorld ownLinksOnA).2
      ∨ ∃ b ls,
          mapGet (visited (UpdateLinks incidentWorld ownLinksOnA).2) (Some b)
          = true
          ∧ ISLProtocolLinks incidentWorld !! b = Some ls
          ∧ IslLinkRef l ∈ ls.
Proof.
  pose proof (incidentWorld_miss incidentWorld eq_refl) as Hpos.
  pose proof UpdateLinks_incidentWorld as Hupd.
  exact (conj eq_refl (conj Hpos (conj Hupd
           (UpdateLinks_established_from_lists incidentWorld ownLinksOnA satA
              _ _ _ eq_refl Hpos Hupd)))).
Defined.

Lemma UpdateLinks_twice_cache_hit_witness :
  satellite ownLinksOnA = Some satA
  ∧ UpdateLinks incidentWorld ownLinksOnA
    = (Returned [IslLinkRef linkAB; IslLinkRef linkBC],
       (UpdateLinks incidentWorld ownLinksOnA).1.2,
       (UpdateLinks incidentWorld ownLinksOnA).2)
  ∧ ∃ p2,
      UpdateLinks (UpdateLinks incidentWorld ownLinksOnA).1.2
                  (UpdateLinks incidentWorld ownLinksOnA).2
      = (Returned [IslLinkRef linkAB; IslLinkRef linkBC],
         (UpdateLinks incidentWorld ownLinksOnA).1.2, p2)
      ∧ p2 = set_readyCh false (UpdateLinks incidentWorld ownLinksOnA).2.
Proof.
  pose proof UpdateLinks_incidentWorld as Hupd.
  destruct (UpdateLinks_twice_cache_hit incidentWorld ownLinksOnA satA _ _ _
              eq_refl Hupd) as [Hsame Hnext].
  destruct (Hnext _ Hsame) as (p2 & Hsecond & Hp2 & _).
  exact (conj eq_refl (conj Hupd (ex_intro _ p2 (conj Hsecond Hp2)))).
Defined.

Lemma UpdateLinks_distance_filter_witness :
  satellite ownLinksOnA = Some satA
  ∧ position ownLinksOnA
    ≠ PositionVector (withMaxISLDistance 20 incidentWorld) satA
  ∧ MaxISLDistance (withMaxISLDistance 20 incidentWorld)
    < Distance (linkAt (withMaxISLDistance 20 incidentWorld) linkAC)
  ∧ (∀ q mst d,
       loopReaches (withMaxISLDistance 20 incidentWorld)
         (beginPass (withMaxISLDistance 20 incidentWorld) satA ownLinksOnA)
         [] q mst →
       (linkAC, d) ∉ pq q)
  ∧ (∀ res W' p',
       UpdateLinks (withMaxISLDistance 20 incidentWorld) ownLinksOnA
       = (Returned res, W', p') →
       (IslLinkRef linkAC ∉ res) ∧ (linkAC ∉ established p')).
Proof.
  pose proof (incidentWorld_miss (withMaxISLDistance 20 incidentWorld)
                eq_refl) as Hpos.
  assert (MaxISLDistance (withMaxISLDistance 20 incidentWorld)
          < Distance (linkAt (withMaxISLDistance 20 incidentWorld) linkAC))
    as Hfar by (vm_compute; reflexivity).
  exact (conj eq_refl (conj Hpos (conj Hfar
           (UpdateLinks_distance_filter (withMaxISLDistance 20 incidentWorld)
              ownLinksOnA satA linkAC eq_refl Hpos Hfar)))).
Defined.

Lemma UpdateLinks_flaggedWorld :
  UpdateLinks flaggedWorld connectedAC
  = (Returned [IslLinkRef linkAB; IslLinkRef linkBC],
     (UpdateLinks flaggedWorld connectedAC).1.2,
     (UpdateLinks flaggedWorld connectedAC).2).
Proof.
  assert ((UpdateLinks flaggedWorld connectedAC).1.1
          = Returned [IslLinkRef linkAB; IslLinkRef linkBC]) as <-
    by (vm_compute; reflexivity).
  apply triple_eta.
Qed.

Lemma UpdateLinks_reconciles_flags_witness :
  satellite connectedAC = Some satA
  ∧ position connectedAC ≠ PositionVector flaggedWorld satA
  ∧ established connectedAC = [linkAC]
  ∧ isEstablished (linkAt flaggedWorld linkAC) = true
  ∧ UpdateLinks flaggedWorld connectedAC
    = (Returned [IslLinkRef linkAB; IslLinkRef linkBC],
       (UpdateLinks flaggedWorld connectedAC).1.2,
       (UpdateLinks flaggedWorld connectedAC).2)
  ∧ (∀ l, l ∈ established (UpdateLinks flaggedWorld connectedAC).2 →
          isEstablished (linkAt (UpdateLinks flaggedWorld connectedAC).1.2 l)
          = true)
  ∧ (∀ l, l ∈ established connectedAC →
          l ∉ established (UpdateLinks flaggedWorld connectedAC).2 →
          isEstablished (linkAt (UpdateLinks flaggedWorld connectedAC).1.2 l)
          = false).
Proof.
  assert (position connectedAC ≠ PositionVector flaggedWorld satA) as Hpos
    by (vm_compute; discriminate).
  pose proof UpdateLinks_flaggedWorld as Hupd.
  destruct (UpdateLinks_reconciles_flags flaggedWorld connectedAC satA _ _ _
              eq_refl Hpos Hupd) as (_ & Hset & Hcleared).
  exact (conj eq_refl (conj Hpos (conj eq_refl (conj eq_refl
           (conj Hupd (conj Hset Hcleared)))))).
Defined.

(** * Further properties of the operations *)

(** ** [Mount], [AddLink], [ConnectLink] and [DisconnectLink] *)

(** X1. The first satellite mounted stays: mounting a satellite binds it
    only when none was bound, any later [Mount] changes nothing, a node that
    is no satellite is never bound, and [Mount] touches no field but the
    mounted satellite. *)
Theorem Mount_first_wins (p : Protocol) (a : nat) (n : INode) (g : nat) :
  satellite (Mount (SatelliteNode a) p) = Some (default a (satellite p))
  ∧ Mount n (Mount (SatelliteNode a) p) = Mount (SatelliteNode a) p
  ∧ Mount (OtherNode g) p = p
  ∧ set_satellite (satellite p) (Mount n p) = p.
Proof.
  unfold Mount. destruct p as [ls es [s|] ss pos vis q rc]; simpl.
  - repeat split; by destruct n.
  - repeat split; by destruct n.
Qed.

Lemma set_links_twice x y p : set_links x (set_links y p) = set_links x p.
Proof. reflexivity. Qed.

Lemma set_links_AddLink l p : set_links (links p) (AddLink l p) = p.
Proof. unfold AddLink. destruct (asIslLink l); by destruct p. Qed.

Lemma addLinks_links ls p :
  links (addLinks ls p) = links p ++ omap asIslLink ls
  ∧ set_links (links p) (addLinks ls p) = p.
Proof.
  unfold addLinks. revert p. induction ls as [|l ls IH]; intros p; simpl.
  - rewrite app_nil_r. by destruct p.
  - destruct (IH (AddLink l p)) as [Hlinks Hrest]. split.
    + rewrite Hlinks. unfold AddLink.
      destruct (asIslLink l) as [isl|]; simpl; [|done].
      by rewrite <- app_assoc.
    + rewrite <- (set_links_twice _ (links (AddLink l p))), Hrest.
      apply set_links_AddLink.
Qed.

(** X2. Candidates accumulate in call order: after [AddLink] on each link of
    a list, [Links()] returns the candidates there were, followed by the
    links of the list that are of the protocol's own link type, in order and
    with repetitions kept; links of another type are dropped, and no other
    field changes. *)
Theorem AddLink_sequence (ls : list ILink) (p : Protocol) :
  Links (addLinks ls p) = Links p ++ (IslLinkRef <$> omap asIslLink ls)
  ∧ set_links (links p) (addLinks ls p) = p.
Proof.
  destruct (addLinks_links ls p) as [Hlinks Hrest].
  split; [|done]. unfold Links. by rewrite Hlinks, fmap_app.
Qed.

Lemma removeFirst_split l l1 l2 :
  l ∉ l1 → removeFirst l (l1 ++ l :: l2) = l1 ++ l2.
Proof.
  induction l1 as [|x l1 IH]; simpl; intros Hnot.
  - by rewrite decide_True.
  - apply not_elem_of_cons in Hnot as [Hne Hnot].
    rewrite decide_False; [|done]. by rewrite IH.
Qed.

Lemma elem_of_first_split (l : LinkPtr) (es : list LinkPtr) :
  l ∈ es → ∃ l1 l2, es = l1 ++ l :: l2 ∧ (l ∉ l1).
Proof.
  induction es as [|x es IH]; intros Hin; [by apply elem_of_nil in Hin|].
  destruct (decide (x = l)) as [->|Hne].
  - exists [], es. split; [done|apply not_elem_of_nil].
  - apply elem_of_cons in Hin as [?|Hin]; [congruence|].
    destruct (IH Hin) as (l1 & l2 & -> & Hnot).
    exists (x :: l1), l2. split; [done|].
    apply not_elem_of_cons. split; [congruence|done].
Qed.

(** X3. [DisconnectLink] on an established link cuts out its first
    occurrence and nothing else: the entries before and after it stay, in
    their order, and later occurrences of the same link stay too. *)
Theorem DisconnectLink_first_occurrence (p : Protocol) (l : LinkPtr) :
  l ∈ established p →
  ∃ l1 l2,
    established p = l1 ++ l :: l2 ∧ (l ∉ l1)
    ∧ DisconnectLink (IslLinkRef l) p = (set_established (l1 ++ l2) p, None).
Proof.
  intros Hin. destruct (elem_of_first_split l _ Hin) as (l1 & l2 & Hes & Hnot).
  exists l1, l2. repeat split; [done..|].
  unfold DisconnectLink. simpl. by rewrite Hes, removeFirst_split.
Qed.

Lemma DisconnectLink_first_occurrence_witness :
  linkAC ∈ established connectedAC
  ∧ ∃ l1 l2,
      established connectedAC = l1 ++ linkAC :: l2 ∧ (linkAC ∉ l1)
      ∧ DisconnectLink (IslLinkRef linkAC) connectedAC
        = (set_established (l1 ++ l2) connectedAC, None).
Proof.
  assert (linkAC ∈ established connectedAC) as Hin by (by left).
  exact (conj Hin (DisconnectLink_first_occurrence connectedAC linkAC Hin)).
Defined.

(** X4. [DisconnectLink] on a link that is not established changes
    nothing. *)
Theorem DisconnectLink_absent (p : Protocol) (l : LinkPtr) :
  l ∉ established p → DisconnectLink (IslLinkRef l) p = (p, None).
Proof.
  intros Hnot. unfold DisconnectLink. simpl.
  rewrite removeFirst_absent; [|done]. by destruct p.
Qed.

Lemma DisconnectLink_absent_witness :
  (linkAB ∉ established connectedAC)
  ∧ DisconnectLink (IslLinkRef linkAB) connectedAC = (connectedAC, None).
Proof.
  assert (linkAB ∉ established connectedAC) as Hnot.
  { intros Hin. apply list_elem_of_singleton in Hin. discriminate. }
  exact (conj Hnot (DisconnectLink_absent connectedAC linkAB Hnot)).
Defined.

Lemma removeFirst_count (l x : LinkPtr) (es : list LinkPtr) :
  count_occ Nat.eq_dec (removeFirst l es) x
  = if decide (x = l) then Nat.pred (count_occ Nat.eq_dec es x)
    else count_occ Nat.eq_dec es x.
Proof.
  induction es as [|y es IH]; simpl.
  - by destruct (decide (x = l)).
  - destruct (decide (y = l)) as [Hyl|Hyl].
    + destruct (Nat.eq_dec y x) as [Hyx|Hyx];
        destruct (decide (x = l)); simpl; congruence.
    + simpl. rewrite IH.
      destruct (Nat.eq_dec y x) as [Hyx|Hyx];
        destruct (decide (x = l)); simpl; congruence.
Qed.

(** X5. [DisconnectLink] removes one occurrence at most: the number of times
    the link is established drops by one (and stays zero when it was zero),
    and the number of times any other link is established does not change.
    In particular a link connected twice is still established after one
    [DisconnectLink]. *)
Theorem DisconnectLink_counts (p : Protocol) (l x : LinkPtr) :
  count_occ Nat.eq_dec (established (DisconnectLink (IslLinkRef l) p).1) x
  = if decide (x = l)
    then Nat.pred (count_occ Nat.eq_dec (established p) x)
    else count_occ Nat.eq_dec (established p) x.
Proof. simpl. apply removeFirst_count. Qed.

(** ** What [UpdateLinks] leaves alone *)

Lemma loopBody_sameFrame W p mst : sameFrame p (flowState (loopBody W p mst)).
Proof.
  unfold loopBody. destruct (pq p) as [|[link d] q]; simpl; [done|].
  destruct (mapGet (visited p) _ && mapGet (visited p) _); [done|].
  destruct (if negb _ then _ else _) as [n|]; [|done].
  by destruct (ISLProtocolLinks W !! n).
Qed.

Lemma primLoop_sameFrame fuel W p mst r :
  primLoop fuel W p mst = Some r → sameFrame p (flowState r).
Proof.
  revert p mst. induction fuel as [|fuel IH]; intros p mst; simpl; [done|].
  destruct (loopCond p mst); [|by intros [= <-]].
  pose proof (loopBody_sameFrame W p mst) as Hframe.
  destruct (loopBody W p mst) as [p1 m1|p1 m1|p1 m1]; simpl in Hframe.
  - intros Hrec. eapply sameFrame_trans; [done|by eapply IH].
  - by intros [= <-].
  - by intros [= <-].
Qed.

Lemma runLoop_sameFrame W p mst : sameFrame p (flowState (runLoop W p mst)).
Proof. eapply primLoop_sameFrame, runLoop_primLoop. Qed.

Lemma sameButFlags_refl W : sameButFlags W W.
Proof. by repeat split. Qed.

Lemma sameButFlags_reconcile mst old W : sameButFlags W (reconcile mst old W).
Proof.
  destruct (reconcile_spec mst old W) as (_ & ? & ? & ?).
  repeat split; try done; by destruct (reconcile_endpoints mst old W l)
    as (? & ? & ?).
Qed.

(** X6. Whatever [UpdateLinks] does (return, fail or panic), it changes
    neither the candidate list nor the mounted satellite, and in the world
    it changes established flags at most: endpoints and distances of links,
    positions, the maximum range and the candidate lists of the other
    protocols stay. *)
Theorem UpdateLinks_frame (W : World) (p : Protocol) :
  links (UpdateLinks W p).2 = links p
  ∧ satellite (UpdateLinks W p).2 = satellite p
  ∧ sameButFlags W (UpdateLinks W p).1.2.
Proof.
  unfold UpdateLinks. destruct (satellite p) as [a|] eqn:Hsat.
  - destruct (Equals (position p) (PositionVector W a)).
    + simpl. repeat split; try done.
    + pose proof (runLoop_sameFrame W (beginPass W a p) []) as Hframe.
      destruct (runLoop W (beginPass W a p) []) as [q m|q m|q m];
        destruct Hframe as (Hl & _ & Hs & _); simpl in *;
        (split; [done|]); (split; [congruence|]);
        try apply sameButFlags_reconcile; apply sameButFlags_refl.
  - simpl. repeat split; try done.
Qed.

(** X7. After a call that returns, the cached position is the position of
    the mounted satellite, the returned links are the established list, and
    the readiness signal tells which path was taken: pending after a
    recomputation, drained after a cache hit. *)
Theorem UpdateLinks_cache_and_signal W p a res W' p' :
  satellite p = Some a →
  UpdateLinks W p = (Returned res, W', p') →
  position p' = PositionVector W a
  ∧ res = Established p'
  ∧ readyCh p' = negb (Equals (position p) (PositionVector W a)).
Proof.
  intros Hsat Hupd.
  destruct (UpdateLinks_Returned W p a res W' p' Hsat Hupd)
    as (_ & Hpos' & _ & Hres).
  repeat split; [done..|].
  destruct (decide (position p = PositionVector W a)) as [Hpos|Hpos].
  - rewrite (UpdateLinks_hit W p a Hsat Hpos) in Hupd.
    injection Hupd as <- <- <-. simpl.
    by rewrite (proj2 (Equals_true _ _) Hpos).
  - destruct (UpdateLinks_miss W p a res W' p' Hsat Hpos Hupd)
      as (q & mst & _ & _ & _ & _ & ->).
    simpl. by rewrite (proj2 (Equals_false _ _) Hpos).
Qed.

Lemma UpdateLinks_cache_and_signal_witness :
  satellite ownLinksOnA = Some satA
  ∧ UpdateLinks incidentWorld ownLinksOnA
    = (Returned [IslLinkRef linkAB; IslLinkRef linkBC],
       (UpdateLinks incidentWorld ownLinksOnA).1.2,
       (UpdateLinks incidentWorld ownLinksOnA).2)
  ∧ position (UpdateLinks incidentWorld ownLinksOnA).2
    = PositionVector incidentWorld satA
  ∧ [IslLinkRef linkAB; IslLinkRef linkBC]
    = Established (UpdateLinks incidentWorld ownLinksOnA).2
  ∧ readyCh (UpdateLinks incidentWorld ownLinksOnA).2
    = negb (Equals (position ownLinksOnA)
                   (PositionVector incidentWorld satA)).
Proof.
  pose proof UpdateLinks_incidentWorld as Hupd.
  exact (conj eq_refl (conj Hupd
           (UpdateLinks_cache_and_signal incidentWorld ownLinksOnA satA
              _ _ _ eq_refl Hupd))).
Defined.

(** X8. The cache looks at the position only: a candidate added after a
    call that returned is not considered as long as the mounted satellite
    stays where it was. The next call returns the same links as before and
    leaves the world alone. *)
Theorem UpdateLinks_ignores_new_candidate W p a res W1 p1 link W2 :
  satellite p = Some a →
  UpdateLinks W p = (Returned res, W1, p1) →
  PositionVector W2 a = PositionVector W a →
  UpdateLinks W2 (AddLink link p1)
  = (Returned res, W2, set_readyCh false (AddLink link p1)).
Proof.
  intros Hsat Hupd HW2.
  destruct (UpdateLinks_Returned W p a res W1 p1 Hsat Hupd)
    as (Hsat1 & Hpos1 & _ & ->).
  assert (satellite (AddLink link p1) = Some a
          ∧ position (AddLink link p1) = position p1
          ∧ established (AddLink link p1) = established p1)
    as (Hs & Hp & He).
  { unfold AddLink. by destruct (asIslLink link). }
  rewrite (UpdateLinks_hit W2 (AddLink link p1) a Hs); [|congruence].
  by rewrite He.
Qed.

Lemma UpdateLinks_ignores_new_candidate_witness :
  satellite ownLinksOnA = Some satA
  ∧ UpdateLinks incidentWorld ownLinksOnA
    = (Returned [IslLinkRef linkAB; IslLinkRef linkBC],
       (UpdateLinks incidentWorld ownLinksOnA).1.2,
       (UpdateLinks incidentWorld ownLinksOnA).2)
  ∧ PositionVector incidentWorld satA = PositionVector incidentWorld satA
  ∧ UpdateLinks incidentWorld
      (AddLink (IslLinkRef linkBC) (UpdateLinks incidentWorld ownLinksOnA).2)
    = (Returned [IslLinkRef linkAB; IslLinkRef linkBC], incidentWorld,
       set_readyCh false
         (AddLink (IslLinkRef linkBC)
            (UpdateLinks incidentWorld ownLinksOnA).2)).
Proof.
  pose proof UpdateLinks_incidentWorld as Hupd.
  exact (conj eq_refl (conj Hupd (conj eq_refl
           (UpdateLinks_ignores_new_candidate incidentWorld ownLinksOnA satA
              _ _ _ (IslLinkRef linkBC) incidentWorld eq_refl Hupd eq_refl)))).
Defined.

(** X9. A new protocol caches the zero vector as its position, so for a
    satellite that sits at the zero vector the first call is already a cache
    hit: on a protocol that was only mounted and given candidates,
    [UpdateLinks] returns no link and changes nothing, whatever the
    candidates are. *)
Theorem UpdateLinks_fresh_at_origin (W : World) (a : nat) (ls : list ILink) :
  PositionVector W a = mkVector 0 0 0 →
  UpdateLinks W
    (addLinks ls (Mount (SatelliteNode a) NewIslSatelliteCentricMstProtocol))
  = (Returned [], W,
     addLinks ls (Mount (SatelliteNode a) NewIslSatelliteCentricMstProtocol)).
Proof.
  intros Horigin.
  set (p0 := Mount (SatelliteNode a) NewIslSatelliteCentricMstProtocol).
  destruct (addLinks_links ls p0) as [_ Hrest].
  destruct (addLinks ls p0) as [cs es s ss pos vis q rc] eqn:Hp.
  injection Hrest as -> -> -> -> -> -> ->.
  rewrite (UpdateLinks_hit W _ a); [done|done|].
  simpl. by rewrite Horigin.
Qed.

Lemma UpdateLinks_fresh_at_origin_witness :
  PositionVector (scenarioWorld true true true (mkVector 0 0 0) [] []) satA
  = mkVector 0 0 0
  ∧ UpdateLinks (scenarioWorld true true true (mkVector 0 0 0) [] [])
      (addLinks [IslLinkRef linkAB; IslLinkRef linkAC]
         (Mount (SatelliteNode satA) NewIslSatelliteCentricMstProtocol))
    = (Returned [], scenarioWorld true true true (mkVector 0 0 0) [] [],
       addLinks [IslLinkRef linkAB; IslLinkRef linkAC]
         (Mount (SatelliteNode satA) NewIslSatelliteCentricMstProtocol)).
Proof.
  exact (conj eq_refl
           (UpdateLinks_fresh_at_origin
              (scenarioWorld true true true (mkVector 0 0 0) [] []) satA
              [IslLinkRef linkAB; IslLinkRef linkAC] eq_refl)).
Defined.

(** ** The satellite list and the size of the tree *)

Lemma collectSatellites_dom W ls k :
  k ∈ dom (collectSatellites W ls)
  ↔ ∃ l b, l ∈ ls ∧ k = Some b ∧ touches W l (SatelliteNode b).
Proof.
  unfold collectSatellites.
  assert (∀ m : gmap (option nat) bool,
    k ∈ dom (foldl (λ satMap link,
                let satMap :=
                  match asSatellite (Node1 (linkAt W link)) with
                  | Some a => <[Some a := true]> satMap
                  | None => satMap
                  end in
                match asSatellite (Node2 (linkAt W link)) with
                | Some a => <[Some a := true]> satMap
                | None => satMap
                end) m ls)
    ↔ k ∈ dom m
      ∨ ∃ l b, l ∈ ls ∧ k = Some b ∧ touches W l (SatelliteNode b)) as Hgen.
  { induction ls as [|x ls IH]; intros m; simpl.
    - split; [by left|]. intros [?|(l & b & Hin & _)]; [done|].
      by apply elem_of_nil in Hin.
    - rewrite IH. unfold touches.
      destruct (Node1 (linkAt W x)) as [a1|g1] eqn:H1,
               (Node2 (linkAt W x)) as [a2|g2] eqn:H2; simpl;
        rewrite ?dom_insert, ?elem_of_union, ?elem_of_singleton;
        (split;
         [ intros [Hk|(l & b & Hin & -> & Ht)];
           [ repeat (destruct Hk as [Hk|Hk]); try (by left);
             right; exists x; eexists; (split; [by left|]);
             (split; [exact Hk|]); rewrite ?H1, ?H2; auto
           | right; exists l, b; (split; [by right|]); done ]
         | intros [Hk|(l & b & Hin & -> & Ht)]; [by auto|];
           apply elem_of_cons in Hin as [->|Hin];
           [ rewrite ?H1, ?H2 in Ht;
             destruct Ht as [[= ->]|[= ->]]; auto
           | right; by exists l, b ] ]). }
  rewrite Hgen. split; [|by right].
  intros [Hk|?]; [|done]. by rewrite dom_empty in Hk.
Qed.

Lemma mapKeys_spec (m : gmap (option nat) bool) :
  NoDup (mapKeys m) ∧ length (mapKeys m) = size m
  ∧ ∀ k, k ∈ mapKeys m ↔ k ∈ dom m.
Proof.
  unfold mapKeys. split; [apply NoDup_fst_map_to_list|].
  split; [by rewrite length_fmap, length_map_to_list|].
  intros k. rewrite elem_of_dom. split.
  - intros Hin. apply list_elem_of_fmap in Hin as ([k' b] & -> & Hin).
    apply elem_of_map_to_list in Hin. by eexists.
  - intros [b Hb]. apply list_elem_of_fmap. exists (k, b).
    split; [done|]. by apply elem_of_map_to_list.
Qed.

(** X10. After a recomputation that returns, the satellite list of the
    protocol holds, each once, the satellites that are an endpoint of one of
    its own candidate links, whether the link is within range or not; nodes
    that are no satellites are not in it. *)
Theorem UpdateLinks_satellites W p a res W' p' :
  satellite p = Some a →
  position p ≠ PositionVector W a →
  UpdateLinks W p = (Returned res, W', p') →
  NoDup (satellites p')
  ∧ ∀ k, k ∈ satellites p'
         ↔ ∃ l b, l ∈ links p ∧ k = Some b ∧ touches W l (SatelliteNode b).
Proof.
  intros Hsat Hpos Hupd.
  destruct (UpdateLinks_miss W p a res W' p' Hsat Hpos Hupd)
    as (q & mst & Hreach & _ & -> & -> & ->).
  destruct (loopReaches_sameFrame _ _ _ _ _ Hreach) as (_ & _ & _ & Hs & _).
  simpl in *. rewrite Hs.
  destruct (mapKeys_spec (collectSatellites W (links p))) as (Hnd & _ & Hin).
  split; [done|]. intros k. by rewrite Hin, collectSatellites_dom.
Qed.

Lemma UpdateLinks_satellites_witness :
  satellite ownLinksOnA = Some satA
  ∧ position ownLinksOnA ≠ PositionVector incidentWorld satA
  ∧ UpdateLinks incidentWorld ownLinksOnA
    = (Returned [IslLinkRef linkAB; IslLinkRef linkBC],
       (UpdateLinks incidentWorld ownLinksOnA).1.2,
       (UpdateLinks incidentWorld ownLinksOnA).2)
  ∧ NoDup (satellites (UpdateLinks incidentWorld ownLinksOnA).2)
  ∧ ∀ k, k ∈ satellites (UpdateLinks incidentWorld ownLinksOnA).2
         ↔ ∃ l b, l ∈ links ownLinksOnA ∧ k = Some b
                  ∧ touches incidentWorld l (SatelliteNode b).
Proof.
  pose proof (incidentWorld_miss incidentWorld eq_refl) as Hpos.
  pose proof UpdateLinks_incidentWorld as Hupd.
  exact (conj eq_refl (conj Hpos (conj Hupd
           (UpdateLinks_satellites incidentWorld ownLinksOnA satA _ _ _
              eq_refl Hpos Hupd)))).
Defined.

Lemma bounded_round W p mst p' mst' :
  bounded p mst → loopCond p mst = true →
  loopBody W p mst = Next p' mst' → bounded p' mst'.
Proof.
  unfold bounded. intros Hb Hc Hbody.
  pose proof (loopCond_more_to_add _ _ Hc) as Hlt.
  destruct (loopBody_Next W p mst p' mst' Hc Hbody) as [_ Hframe].
  destruct Hframe as (_ & _ & _ & Hs & _). rewrite Hs.
  destruct (loopBody_cases W p mst Hc) as (link & d & q & Hpq & Hcases).
  destruct Hcases as [(_ & _ & Hskip)|[(n & ls & _ & _ & Hadd)|[p0 Hp]]].
  - rewrite Hskip in Hbody. injection Hbody as <- <-. done.
  - rewrite Hadd in Hbody. injection Hbody as <- <-.
    rewrite length_app. simpl. lia.
  - congruence.
Qed.

(** X11. The tree a recomputation returns has at most as many links as the
    satellite list has satellites beyond the first, and the loop stops only
    for one of its two reasons: the tree has exactly that many links, or the
    queue is empty. *)
Theorem UpdateLinks_size W p a res W' p' :
  satellite p = Some a →
  position p ≠ PositionVector W a →
  UpdateLinks W p = (Returned res, W', p') →
  length res = length (established p')
  ∧ Z.of_nat (length (established p'))
    ≤ Z.max 0 (Z.of_nat (length (satellites p')) - 1)
  ∧ (Z.of_nat (length (established p'))
     = Z.max 0 (Z.of_nat (length (satellites p')) - 1)
     ∨ pq p' = []).
Proof.
  intros Hsat Hpos Hupd.
  destruct (UpdateLinks_miss W p a res W' p' Hsat Hpos Hupd)
    as (q & mst & Hreach & Hstop & -> & -> & ->).
  apply (loopReaches_invariant W bounded) in Hreach;
    [|apply bounded_round|unfold bounded; simpl; lia].
  unfold bounded in Hreach. simpl.
  split; [by rewrite length_fmap|]. split; [done|].
  unfold loopCond, PQ.Len in Hstop.
  apply andb_false_iff in Hstop as [Hfull|Hempty].
  - left. apply Z.ltb_ge in Hfull. lia.
  - right. apply Z.ltb_ge in Hempty. destruct (pq q); [done|]. simpl in *. lia.
Qed.

Lemma UpdateLinks_size_witness :
  satellite ownLinksOnA = Some satA
  ∧ position ownLinksOnA ≠ PositionVector incidentWorld satA
  ∧ UpdateLinks incidentWorld ownLinksOnA
    = (Returned [IslLinkRef linkAB; IslLinkRef linkBC],
       (UpdateLinks incidentWorld ownLinksOnA).1.2,
       (UpdateLinks incidentWorld ownLinksOnA).2)
  ∧ Z.of_nat (length (established (UpdateLinks incidentWorld ownLinksOnA).2))
    ≤ Z.max 0
        (Z.of_nat (length (satellites (UpdateLinks incidentWorld
                                         ownLinksOnA).2)) - 1).
Proof.
  pose proof (incidentWorld_miss incidentWorld eq_refl) as Hpos.
  pose proof UpdateLinks_incidentWorld as Hupd.
  destruct (UpdateLinks_size incidentWorld ownLinksOnA satA _ _ _
              eq_refl Hpos Hupd) as (_ & Hle & _).
  exact (conj eq_refl (conj Hpos (conj Hupd Hle))).
Defined.

Lemma seedQueue_out_of_range W ls :
  (∀ l, l ∈ ls → MaxISLDistance W < Distance (linkAt W l)) →
  seedQueue W ls [] = [].
Proof.
  intros Hfar. destruct (seedQueue W ls []) as [|it q] eqn:Hq; [done|].
  assert (it ∈ seedQueue W ls []) as Hin by (rewrite Hq; by left).
  apply seedQueue_elem_of in Hin as [Hin|(l & _ & Hl & Hd)].
  - by apply elem_of_nil in Hin.
  - specialize (Hfar l Hl). lia.
Qed.

(** X12. When no candidate is within range (in particular when there is no
    candidate at all), a recomputation returns without running a round of
    the loop: the tree is empty, the established list and the queue are
    emptied, and every link that was established has its flag cleared. *)
Theorem UpdateLinks_nothing_in_range W p a :
  satellite p = Some a →
  position p ≠ PositionVector W a →
  (∀ l, l ∈ links p → MaxISLDistance W < Distance (linkAt W l)) →
  ∃ W' p',
    UpdateLinks W p = (Returned [], W', p')
    ∧ established p' = [] ∧ pq p' = [] ∧ readyCh p' = true
    ∧ ∀ l, l ∈ established p → isEstablished (linkAt W' l) = false.
Proof.
  intros Hsat Hpos Hfar.
  assert (pq (beginPass W a p) = []) as Hq
    by apply (seedQueue_out_of_range W (links p) Hfar).
  assert (loopCond (beginPass W a p) [] = false) as Hstop.
  { unfold loopCond, PQ.Len. rewrite Hq. apply andb_false_r. }
  rewrite (UpdateLinks_miss_returns W p a (beginPass W a p) [] Hsat Hpos
             (reaches_here _ _ _) Hstop).
  do 2 eexists. split; [reflexivity|]. simpl.
  repeat split; [by apply seedQueue_out_of_range|].
  intros l Hin. destruct (reconcile_spec [] (established p) W) as (Hlink & _).
  rewrite Hlink. rewrite bool_decide_eq_false_2; [|apply not_elem_of_nil].
  by rewrite bool_decide_eq_true_2.
Qed.

Lemma UpdateLinks_nothing_in_range_witness :
  satellite connectedAC = Some satA
  ∧ position connectedAC
    ≠ PositionVector (withMaxISLDistance 5 flaggedWorld) satA
  ∧ (∀ l, l ∈ links connectedAC →
          MaxISLDistance (withMaxISLDistance 5 flaggedWorld)
          < Distance (linkAt (withMaxISLDistance 5 flaggedWorld) l))
  ∧ ∃ W' p',
      UpdateLinks (withMaxISLDistance 5 flaggedWorld) connectedAC
      = (Returned [], W', p')
      ∧ established p' = [] ∧ pq p' = [] ∧ readyCh p' = true
      ∧ ∀ l, l ∈ established connectedAC →
             isEstablished (linkAt W' l) = false.
Proof.
  assert (position connectedAC
          ≠ PositionVector (withMaxISLDistance 5 flaggedWorld) satA) as Hpos
    by (vm_compute; discriminate).
  assert (∀ l, l ∈ links connectedAC →
            MaxISLDistance (withMaxISLDistance 5 flaggedWorld)
            < Distance (linkAt (withMaxISLDistance 5 flaggedWorld) l))
    as Hfar.
  { intros l Hin. apply elem_of_cons in Hin as [->|Hin]; [by vm_compute|].
    apply list_elem_of_singleton in Hin as ->. by vm_compute. }
  exact (conj eq_refl (conj Hpos (conj Hfar
           (UpdateLinks_nothing_in_range (withMaxISLDistance 5 flaggedWorld)
              connectedAC satA eq_refl Hpos Hfar)))).
Defined.

(** ** The visited set *)

Lemma reachesOut_round W a p mst p' mst' :
  reachesOut W a p mst → loopCond p mst = true →
  loopBody W p mst = Next p' mst' → reachesOut W a p' mst'.
Proof.
  intros [Ha Hm] Hc Hb.
  destruct (loopBody_cases W p mst Hc) as (link & d & q & Hpq & Hcases).
  destruct Hcases as [(_ & _ & Hskip)|[(n & ls & Hnew & Hls & Hadd)|[p0 Hp]]].
  - rewrite Hskip in Hb. injection Hb as <- <-. by split.
  - rewrite Hadd in Hb. injection Hb as <- <-. split; simpl.
    + by apply mapGet_insert_mono.
    + intros l Hin. apply elem_of_app in Hin as [Hin|Hin].
      * destruct (Hm l Hin) as (b & Hne & Ht & Hv & Hp).
        exists b. repeat split; [done..|by apply mapGet_insert_mono|done].
      * apply list_elem_of_singleton in Hin as ->. exists n.
        assert (mapGet (visited p) (Some n) = false
                ∧ touches W link (SatelliteNode n)) as [Hn Ht].
        { destruct Hnew as [[Hv Hs]|(_ & Hv & Hs)]; rewrite Hs in Hv;
            apply asSatellite_Some in Hs; (split; [done|]);
            [by left|by right]. }
        repeat split; [congruence|done| |by eexists].
        rewrite mapGet_insert. by rewrite decide_True.
  - congruence.
Qed.

(** X13. After a recomputation that returns, the mounted satellite is
    visited, the visited set has exactly one satellite more than the tree
    has links (each link of the tree brought one new satellite in), and
    every link of the tree has as an endpoint a visited satellite other than
    the mounted one that has a protocol. A link from the mounted satellite
    to itself is therefore never established. *)
Theorem UpdateLinks_visited W p a res W' p' :
  satellite p = Some a →
  position p ≠ PositionVector W a →
  UpdateLinks W p = (Returned res, W', p') →
  mapGet (visited p') (Some a) = true
  ∧ size (visited p') = S (length (established p'))
  ∧ (∀ l, l ∈ established p' →
       ∃ b, b ≠ a ∧ touches W l (SatelliteNode b)
            ∧ mapGet (visited p') (Some b) = true
            ∧ is_Some (ISLProtocolLinks W !! b))
  ∧ (∀ l, Node1 (linkAt W l) = SatelliteNode a →
          Node2 (linkAt W l) = SatelliteNode a →
          l ∉ established p').
Proof.
  intros Hsat Hpos Hupd.
  destruct (UpdateLinks_miss W p a res W' p' Hsat Hpos Hupd)
    as (q & mst & Hreach & _ & -> & -> & ->).
  pose proof Hreach as Hcount.
  apply (loopReaches_invariant W counted) in Hcount;
    [|apply counted_round|apply counted_beginPass].
  apply (loopReaches_invariant W (reachesOut W a)) in Hreach;
    [|apply reachesOut_round|].
  - destruct Hcount as [_ Hsize]. destruct Hreach as [Ha Hm]. simpl.
    repeat split; [done..|].
    intros l H1 H2 Hin. destruct (Hm l Hin) as (b & Hne & [Ht|Ht] & _);
      congruence.
  - split; simpl.
    + rewrite mapGet_insert. by rewrite decide_True.
    + intros l Hin. by apply elem_of_nil in Hin.
Qed.

Lemma UpdateLinks_visited_witness :
  satellite ownLinksOnA = Some satA
  ∧ position ownLinksOnA ≠ PositionVector incidentWorld satA
  ∧ UpdateLinks incidentWorld ownLinksOnA
    = (Returned [IslLinkRef linkAB; IslLinkRef linkBC],
       (UpdateLinks incidentWorld ownLinksOnA).1.2,
       (UpdateLinks incidentWorld ownLinksOnA).2)
  ∧ mapGet (visited (UpdateLinks incidentWorld ownLinksOnA).2) (Some satA)
    = true
  ∧ size (visited (UpdateLinks incidentWorld ownLinksOnA).2)
    = S (length (established (UpdateLinks incidentWorld ownLinksOnA).2)).
Proof.
  pose proof (incidentWorld_miss incidentWorld eq_refl) as Hpos.
  pose proof UpdateLinks_incidentWorld as Hupd.
  destruct (UpdateLinks_visited incidentWorld ownLinksOnA satA _ _ _
              eq_refl Hpos Hupd) as (Ha & Hsize & _).
  exact (conj eq_refl (conj Hpos (conj Hupd (conj Ha Hsize)))).
Defined.

(** ** Calls that return, calls that panic *)

Lemma incidentWorld_usable l : usable incidentWorld satA l.
Proof.
  intros v Ht. unfold touches in Ht. simpl in Ht. unfold scenarioLinkAt in Ht.
  destruct (decide (l = linkAB)); [|destruct (decide (l = linkAC))];
    simpl in Ht; destruct Ht as [<-|<-]; eexists; (split; [reflexivity|]);
    first [by left|right; vm_compute; by eexists].
Qed.

Lemma UpdateLinks_no_nil_dereference_witness :
  satellite ownLinksOnA = Some satA
  ∧ (UpdateLinks incidentWorld ownLinksOnA).1.1 ≠ Panicked.
Proof.
  exact (conj eq_refl
           (UpdateLinks_no_nil_dereference incidentWorld ownLinksOnA satA
              eq_refl (λ l _, incidentWorld_usable l)
              (λ _ _ l _ _, incidentWorld_usable l))).
Defined.

Lemma Enqueue_ascending l d q : ascending q → ascending (PQ.Enqueue l d q).
Proof.
  unfold ascending. induction 1 as [|x q Hq IH Hx]; simpl.
  - repeat constructor.
  - destruct (d <? x.2) eqn:Hlt.
    + apply Z.ltb_lt in Hlt. constructor; [by constructor|].
      constructor; [simpl; lia|].
      eapply Forall_impl; [exact Hx|]. simpl. intros y Hy. lia.
    + apply Z.ltb_ge in Hlt. constructor; [done|].
      apply Forall_forall. intros y Hy.
      apply Enqueue_elem_of in Hy as [->|Hy]; [done|].
      by eapply (proj1 (Forall_forall _ _) Hx).
Qed.

Lemma seedQueue_ascending W ls q : ascending q → ascending (seedQueue W ls q).
Proof.
  unfold seedQueue. revert q. induction ls as [|x ls IH]; intros q Hq; [done|].
  simpl. apply IH. destruct (_ <=? _); [by apply Enqueue_ascending|done].
Qed.

Lemma seedQueue_keeps W ls q it : it ∈ q → it ∈ seedQueue W ls q.
Proof.
  unfold seedQueue. revert q. induction ls as [|x ls IH]; intros q Hin; [done|].
  simpl. apply IH. destruct (_ <=? _); [|done].
  apply Enqueue_elem_of. by right.
Qed.

Lemma seedQueue_holds W ls q l :
  l ∈ ls → Distance (linkAt W l) ≤ MaxISLDistance W →
  (l, Distance (linkAt W l)) ∈ seedQueue W ls q.
Proof.
  revert q. induction ls as [|x ls IH]; intros q Hin Hd;
    [by apply elem_of_nil in Hin|].
  apply elem_of_cons in Hin as [->|Hin].
  - unfold seedQueue. simpl. apply seedQueue_keeps.
    rewrite (proj2 (Z.leb_le _ _) Hd). apply Enqueue_elem_of. by left.
  - unfold seedQueue. simpl. by apply IH.
Qed.

(** The nearest candidate within range is at the head of the seeded
    queue. *)
Lemma seedQueue_head W ls l :
  l ∈ ls → Distance (linkAt W l) ≤ MaxISLDistance W →
  (∀ l', l' ∈ ls → l' ≠ l → Distance (linkAt W l') ≤ MaxISLDistance W →
         Distance (linkAt W l) < Distance (linkAt W l')) →
  ∃ rest, seedQueue W ls [] = (l, Distance (linkAt W l)) :: rest.
Proof.
  intros Hin Hd Hnearest.
  pose proof (seedQueue_holds W ls [] l Hin Hd) as Hl.
  pose proof (seedQueue_ascending W ls [] (SSorted_nil _)) as Hsorted.
  destruct (seedQueue W ls []) as [|it rest] eqn:Hq;
    [by apply elem_of_nil in Hl|].
  exists rest. f_equal.
  assert (it ∈ seedQueue W ls []) as Hit by (rewrite Hq; by left).
  apply seedQueue_elem_of in Hit as [Hit|(l' & -> & Hl' & Hd')];
    [by apply elem_of_nil in Hit|].
  destruct (decide (l' = l)) as [->|Hne]; [done|].
  specialize (Hnearest l' Hl' Hne Hd').
  apply elem_of_cons in Hl as [[= -> _]|Hl]; [done|].
  apply StronglySorted_inv in Hsorted as [_ Hall].
  pose proof (proj1 (Forall_forall _ _) Hall _ Hl) as Hle. simpl in Hle. lia.
Qed.

Lemma two_satellites W ls a b l1 l2 :
  l1 ∈ ls → touches W l1 (SatelliteNode a) →
  l2 ∈ ls → touches W l2 (SatelliteNode b) → a ≠ b →
  (2 ≤ length (mapKeys (collectSatellites W ls)))%nat.
Proof.
  intros H1 Ht1 H2 Ht2 Hab.
  destruct (mapKeys_spec (collectSatellites W ls)) as (_ & -> & _).
  rewrite <- size_dom.
  assert ({[Some a; Some b]} ⊆ dom (collectSatellites W ls)) as Hsub.
  { intros k Hk. apply collectSatellites_dom.
    apply elem_of_union in Hk as [Hk|Hk]; apply elem_of_singleton in Hk as ->.
    - by exists l1, a.
    - by exists l2, b. }
  apply subseteq_size in Hsub.
  rewrite size_union, !size_singleton in Hsub; [done|].
  apply disjoint_singleton_l. rewrite elem_of_singleton. congruence.
Qed.

(** A round that dequeues a link from a visited satellite to a dead end
    panics. *)
Lemma loopBody_dead_end W p0 mst l d rest a v :
  pq p0 = (l, d) :: rest →
  mapGet (visited p0) (Some a) = true →
  mapGet (visited p0) (asSatellite v) = false →
  joins W l (SatelliteNode a) v →
  deadEnd W v →
  loopBody W p0 mst = Panic (set_pq rest p0) mst.
Proof.
  intros Hpq Hvisited Hunvisited Hj Hdead.
  unfold loopBody. rewrite Hpq. simpl.
  destruct Hj as [[H1 H2]|[H1 H2]]; rewrite H1, H2; simpl;
    rewrite Hvisited, Hunvisited; simpl;
    destruct Hdead as [Hnil|(b' & -> & Hnone)];
    first [by rewrite Hnil|simpl; by rewrite Hnone].
Qed.

(** X15. A nil dereference: when the nearest candidate within range joins
    the mounted satellite to a node that is no satellite, or to a satellite
    without a protocol, and another satellite occurs among the candidates, a
    recomputation panics in its first round. The established list and the
    world are as before the call, but the cached position is already the
    current one, so the next call at this position is a cache hit. *)
Theorem UpdateLinks_panics_at_dead_end W p a l v :
  satellite p = Some a →
  position p ≠ PositionVector W a →
  l ∈ links p →
  Distance (linkAt W l) ≤ MaxISLDistance W →
  (∀ l', l' ∈ links p → l' ≠ l →
         Distance (linkAt W l') ≤ MaxISLDistance W →
         Distance (linkAt W l) < Distance (linkAt W l')) →
  joins W l (SatelliteNode a) v →
  v ≠ SatelliteNode a →
  deadEnd W v →
  (∃ l' b, l' ∈ links p ∧ b ≠ a ∧ touches W l' (SatelliteNode b)) →
  ∃ p', UpdateLinks W p = (Panicked, W, p')
        ∧ established p' = established p
        ∧ position p' = PositionVector W a.
Proof.
  intros Hsat Hpos Hin Hd Hnearest Hj Hv Hdead (l' & b & Hl' & Hb & Ht').
  destruct (seedQueue_head W (links p) l Hin Hd Hnearest) as [rest Hq].
  assert (pq (beginPass W a p) = (l, Distance (linkAt W l)) :: rest) as Hpq
    by exact Hq.
  assert (loopCond (beginPass W a p) [] = true) as Hc.
  { unfold loopCond, PQ.Len. rewrite Hpq.
    change (satellites (beginPass W a p))
      with (mapKeys (collectSatellites W (links p))).
    pose proof (two_satellites W (links p) a b l l' Hin
                  (proj1 (joins_touches W l _ _ Hj)) Hl' Ht'
                  (not_eq_sym Hb)) as H2.
    apply andb_true_intro. split; apply Z.ltb_lt; simpl length; lia. }
  assert (mapGet (visited (beginPass W a p)) (asSatellite v) = false)
    as Hunvisited.
  { simpl. rewrite mapGet_insert, mapGet_empty.
    destruct (decide (Some a = asSatellite v)) as [Heq|]; [|done].
    symmetry in Heq. apply asSatellite_Some in Heq. congruence. }
  assert (mapGet (visited (beginPass W a p)) (Some a) = true) as Hvisited.
  { simpl. rewrite mapGet_insert. by rewrite decide_True. }
  pose proof (loopBody_dead_end W (beginPass W a p) [] l _ rest a v
                Hpq Hvisited Hunvisited Hj Hdead) as Hbody.
  assert (runLoop W (beginPass W a p) []
          = Panic (set_pq rest (beginPass W a p)) []) as Hrun.
  { apply (runLoop_fuel W 1).
    change (primLoop 1 W (beginPass W a p) [])
      with (if loopCond (beginPass W a p) []
            then match loopBody W (beginPass W a p) [] with
                 | Next p' mst' => primLoop 0 W p' mst'
                 | Exit p' mst' => Some (Exit p' mst')
                 | Panic p' mst' => Some (Panic p' mst')
                 end
            else Some (Exit (beginPass W a p) [])).
    by rewrite Hc, Hbody. }
  eexists. unfold UpdateLinks. rewrite Hsat.
  rewrite (proj2 (Equals_false _ _) Hpos), Hrun. done.
Qed.

Lemma UpdateLinks_panics_at_dead_end_witness :
  satellite ownLinksOnA = Some satA
  ∧ position ownLinksOnA ≠ PositionVector groundWorld satA
  ∧ joins groundWorld 0%nat (SatelliteNode satA) (OtherNode 9)
  ∧ deadEnd groundWorld (OtherNode 9)
  ∧ ∃ p', UpdateLinks groundWorld ownLinksOnA = (Panicked, groundWorld, p')
          ∧ established p' = established ownLinksOnA
          ∧ position p' = PositionVector groundWorld satA.
Proof.
  assert (position ownLinksOnA ≠ PositionVector groundWorld satA) as Hpos
    by (vm_compute; discriminate).
  assert (joins groundWorld 0%nat (SatelliteNode satA) (OtherNode 9)) as Hj
    by (by left).
  assert (deadEnd groundWorld (OtherNode 9)) as Hdead by (by left).
  assert (0%nat ∈ links ownLinksOnA) as Hin by (by left).
  assert (∀ l', l' ∈ links ownLinksOnA → l' ≠ 0%nat →
            Distance (linkAt groundWorld l') ≤ MaxISLDistance groundWorld →
            Distance (linkAt groundWorld 0%nat)
            < Distance (linkAt groundWorld l')) as Hnearest.
  { intros l' Hl' Hne _. apply elem_of_cons in Hl' as [->|Hl']; [done|].
    apply list_elem_of_singleton in Hl' as ->. by vm_compute. }
  assert (∃ l' b, l' ∈ links ownLinksOnA ∧ b ≠ satA
                  ∧ touches groundWorld l' (SatelliteNode b)) as Hother.
  { exists 1%nat, satB. split; [by right; left|]. split; [done|by right]. }
  assert (Distance (linkAt groundWorld 0%nat) ≤ MaxISLDistance groundWorld)
    as Hd by (by vm_compute).
  exact (conj eq_refl (conj Hpos (conj Hj (conj Hdead
           (UpdateLinks_panics_at_dead_end groundWorld ownLinksOnA satA
              0%nat (OtherNode 9) eq_refl Hpos Hin Hd Hnearest Hj
              ltac:(discriminate) Hdead Hother))))).
Defined.

(** ** What a recomputation does not depend on *)

Lemma loopBody_withLeftovers W es rc p mst :
  loopBody W (withLeftovers es rc p) mst
  = mapFlow (withLeftovers es rc) (loopBody W p mst).
Proof.
  unfold loopBody. simpl. destruct (pq p) as [|[link d] q]; simpl; [done|].
  destruct (mapGet (visited p) _ && mapGet (visited p) _); [done|].
  destruct (if negb _ then _ else _) as [n|]; [|done].
  by destruct (ISLProtocolLinks W !! n).
Qed.

Lemma primLoop_withLeftovers fuel W es rc p mst :
  primLoop fuel W (withLeftovers es rc p) mst
  = mapFlow (withLeftovers es rc) <$> primLoop fuel W p mst.
Proof.
  revert p mst. induction fuel as [|fuel IH]; intros p mst; simpl; [done|].
  change (loopCond (withLeftovers es rc p) mst) with (loopCond p mst).
  destruct (loopCond p mst); [|done].
  rewrite loopBody_withLeftovers.
  destruct (loopBody W p mst) as [p1 m1|p1 m1|p1 m1]; simpl; [apply IH|done..].
Qed.

Lemma runLoop_withLeftovers W es rc p mst :
  runLoop W (withLeftovers es rc p) mst
  = mapFlow (withLeftovers es rc) (runLoop W p mst).
Proof.
  apply (runLoop_fuel W (S (loopMeasure W p mst))).
  by rewrite primLoop_withLeftovers, runLoop_primLoop.
Qed.

(** X16. A recomputation starts from scratch: two protocols with the same
    mounted satellite and the same candidate list, both away from their
    cached position, end the call in the same way (the same links returned,
    or a panic on both) with the same visited set, queue and cached
    position, and with satellite lists that hold the same satellites (the
    order of that list is left open by the map it is read from), whatever
    established list, visited set, queue, satellite list, cached position
    and pending signal each of them had. *)
Theorem UpdateLinks_from_scratch W p q a :
  satellite p = Some a → satellite q = Some a →
  links p = links q →
  position p ≠ PositionVector W a →
  position q ≠ PositionVector W a →
  (UpdateLinks W p).1.1 = (UpdateLinks W q).1.1
  ∧ visited (UpdateLinks W p).2 = visited (UpdateLinks W q).2
  ∧ pq (UpdateLinks W p).2 = pq (UpdateLinks W q).2
  ∧ satellites (UpdateLinks W p).2 ≡ₚ satellites (UpdateLinks W q).2
  ∧ position (UpdateLinks W p).2 = position (UpdateLinks W q).2.
Proof.
  intros Hp Hq Hlinks Hpp Hpq.
  assert (beginPass W a q
          = withLeftovers (established q) (readyCh q) (beginPass W a p))
    as Hbegin.
  { destruct p, q. simpl in Hp, Hq, Hlinks. subst. reflexivity. }
  unfold UpdateLinks. rewrite Hp, Hq.
  rewrite (proj2 (Equals_false _ _) Hpp), (proj2 (Equals_false _ _) Hpq).
  rewrite Hbegin, runLoop_withLeftovers.
  destruct (runLoop W (beginPass W a p) []) as [r m|r m|r m]; simpl;
    by repeat split.
Qed.

Lemma UpdateLinks_from_scratch_witness :
  satellite ownLinksOnA = Some satA ∧ satellite connectedAC = Some satA
  ∧ links ownLinksOnA = links connectedAC
  ∧ position ownLinksOnA ≠ PositionVector incidentWorld satA
  ∧ position connectedAC ≠ PositionVector incidentWorld satA
  ∧ (UpdateLinks incidentWorld ownLinksOnA).1.1
    = (UpdateLinks incidentWorld connectedAC).1.1.
Proof.
  pose proof (incidentWorld_miss incidentWorld eq_refl) as Hpos.
  assert (position connectedAC ≠ PositionVector incidentWorld satA) as Hpos'
    by (vm_compute; discriminate).
  destruct (UpdateLinks_from_scratch incidentWorld ownLinksOnA connectedAC
              satA eq_refl eq_refl eq_refl Hpos Hpos') as (Hsame & _).
  exact (conj eq_refl (conj eq_refl (conj eq_refl
           (conj Hpos (conj Hpos' Hsame))))).
Defined.

(** ** Links connected by hand, and the nearest neighbour *)

(** X18. A cache hit does not look at the links: a link connected by hand
    with [ConnectLink] is returned by [UpdateLinks] at the end of the
    established list as long as the mounted satellite is at the cached
    position, whether or not it is a candidate or within range; the world is
    left alone. *)
Theorem UpdateLinks_returns_connected_link W p a l :
  satellite p = Some a →
  position p = PositionVector W a →
  UpdateLinks W (ConnectLink (IslLinkRef l) p).1
  = (Returned (Established p ++ [IslLinkRef l]), W,
     set_readyCh false (ConnectLink (IslLinkRef l) p).1).
Proof.
  intros Hsat Hpos.
  rewrite (UpdateLinks_hit W _ a); [|done..].
  simpl. unfold Established. by rewrite fmap_app.
Qed.

Lemma UpdateLinks_returns_connected_link_witness :
  satellite staleProtocol = None
  ∧ satellite (Mount (SatelliteNode satA) staleProtocol) = Some satA
  ∧ position (Mount (SatelliteNode satA) staleProtocol)
    = PositionVector incidentWorld satA
  ∧ UpdateLinks incidentWorld
      (ConnectLink (IslLinkRef linkAC)
         (Mount (SatelliteNode satA) staleProtocol)).1
    = (Returned (Established (Mount (SatelliteNode satA) staleProtocol)
                 ++ [IslLinkRef linkAC]),
       incidentWorld,
       set_readyCh false
         (ConnectLink (IslLinkRef linkAC)
            (Mount (SatelliteNode satA) staleProtocol)).1).
Proof.
  exact (conj eq_refl (conj eq_refl (conj eq_refl
           (UpdateLinks_returns_connected_link incidentWorld
              (Mount (SatelliteNode satA) staleProtocol) satA linkAC
              eq_refl eq_refl)))).
Defined.

(** A round that dequeues a link from a visited satellite to an unvisited
    satellite with a protocol takes the link. *)
Lemma loopBody_live_end W p0 mst l d rest a b ls :
  pq p0 = (l, d) :: rest →
  mapGet (visited p0) (Some a) = true →
  mapGet (visited p0) (Some b) = false →
  joins W l (SatelliteNode a) (SatelliteNode b) →
  ISLProtocolLinks W !! b = Some ls →
  loopBody W p0 mst
  = Next (set_visited (<[Some b := true]> (visited p0))
            (set_pq (enqueueLinksOf W (visited p0) ls rest) p0))
         (mst ++ [l]).
Proof.
  intros Hpq Hvisited Hunvisited Hj Hls.
  unfold loopBody. rewrite Hpq. simpl.
  destruct Hj as [[H1 H2]|[H1 H2]]; rewrite H1, H2; simpl;
    rewrite Hvisited, Hunvisited; simpl; by rewrite Hls.
Qed.

Lemma loopReaches_prefix W p mst p' mst' :
  loopReaches W p mst p' mst' → ∃ more, mst' = mst ++ more.
Proof.
  induction 1 as [p mst|p mst p1 mst1 p2 mst2 Hc Hb _ IH].
  - exists []. by rewrite app_nil_r.
  - destruct IH as [more ->].
    destruct (loopBody_cases W p mst Hc) as (link & d & q & _ & Hcases).
    destruct Hcases as [(_ & _ & H)|[(n & ls & _ & _ & H)|[p0 H]]];
      rewrite H in Hb; [| |done]; injection Hb as <- <-.
    + by exists more.
    + exists (link :: more). by rewrite <- app_assoc.
Qed.

(** X19. The nearest neighbour comes first: when the nearest candidate
    within range joins the mounted satellite to another satellite that has
    a protocol, a recomputation that returns has this link as the first
    link of its result. *)
Theorem UpdateLinks_nearest_first W p a l b ls res W' p' :
  satellite p = Some a →
  position p ≠ PositionVector W a →
  l ∈ links p →
  Distance (linkAt W l) ≤ MaxISLDistance W →
  (∀ l', l' ∈ links p → l' ≠ l →
         Distance (linkAt W l') ≤ MaxISLDistance W →
         Distance (linkAt W l) < Distance (linkAt W l')) →
  joins W l (SatelliteNode a) (SatelliteNode b) →
  b ≠ a →
  ISLProtocolLinks W !! b = Some ls →
  UpdateLinks W p = (Returned res, W', p') →
  ∃ more, res = IslLinkRef l :: more.
Proof.
  intros Hsat Hpos Hin Hd Hnearest Hj Hb Hls Hupd.
  destruct (UpdateLinks_miss W p a res W' p' Hsat Hpos Hupd)
    as (q & mst & Hreach & Hstop & -> & _ & _).
  destruct (seedQueue_head W (links p) l Hin Hd Hnearest) as [rest Hq].
  assert (pq (beginPass W a p) = (l, Distance (linkAt W l)) :: rest) as Hpq
    by exact Hq.
  assert (loopCond (beginPass W a p) [] = true) as Hc.
  { unfold loopCond, PQ.Len. rewrite Hpq.
    change (satellites (beginPass W a p))
      with (mapKeys (collectSatellites W (links p))).
    destruct (joins_touches W l _ _ Hj) as [Hta Htb].
    pose proof (two_satellites W (links p) a b l l Hin Hta Hin Htb
                  (not_eq_sym Hb)) as H2.
    apply andb_true_intro. split; apply Z.ltb_lt; simpl length; lia. }
  assert (mapGet (visited (beginPass W a p)) (Some b) = false) as Hunvisited.
  { simpl. rewrite mapGet_insert, mapGet_empty.
    rewrite decide_False; [done|congruence]. }
  assert (mapGet (visited (beginPass W a p)) (Some a) = true) as Hvisited.
  { simpl. rewrite mapGet_insert. by rewrite decide_True. }
  pose proof (loopBody_live_end W (beginPass W a p) [] l _ rest a b ls
                Hpq Hvisited Hunvisited Hj Hls) as Hbody.
  inversion Hreach as [|? ? p1 mst1 ? ? Hc' Hb' Hrest]; subst.
  - congruence.
  - rewrite Hbody in Hb'. injection Hb' as <- <-.
    apply loopReaches_prefix in Hrest as [more ->].
    exists (IslLinkRef <$> more). by rewrite fmap_app.
Qed.

Lemma UpdateLinks_nearest_first_witness :
  satellite ownLinksOnA = Some satA
  ∧ position ownLinksOnA ≠ PositionVector incidentWorld satA
  ∧ joins incidentWorld linkAB (SatelliteNode satA) (SatelliteNode satB)
  ∧ UpdateLinks incidentWorld ownLinksOnA
    = (Returned [IslLinkRef linkAB; IslLinkRef linkBC],
       (UpdateLinks incidentWorld ownLinksOnA).1.2,
       (UpdateLinks incidentWorld ownLinksOnA).2)
  ∧ ∃ more,
      [IslLinkRef linkAB; IslLinkRef linkBC] = IslLinkRef linkAB :: more.
Proof.
  pose proof (incidentWorld_miss incidentWorld eq_refl) as Hpos.
  pose proof UpdateLinks_incidentWorld as Hupd.
  assert (joins incidentWorld linkAB (SatelliteNode satA)
            (SatelliteNode satB)) as Hj by (by left).
  assert (linkAB ∈ links ownLinksOnA) as Hin by (by left).
  assert (Distance (linkAt incidentWorld linkAB)
          ≤ MaxISLDistance incidentWorld) as Hd by (by vm_compute).
  assert (∀ l', l' ∈ links ownLinksOnA → l' ≠ linkAB →
            Distance (linkAt incidentWorld l')
            ≤ MaxISLDistance incidentWorld →
            Distance (linkAt incidentWorld linkAB)
            < Distance (linkAt incidentWorld l')) as Hnearest.
  { intros l' Hl' Hne _. apply elem_of_cons in Hl' as [->|Hl']; [done|].
    apply list_elem_of_singleton in Hl' as ->. by vm_compute. }
  assert (ISLProtocolLinks incidentWorld !! satB
          = Some [IslLinkRef linkAB; IslLinkRef linkBC]) as Hls
    by (vm_compute; reflexivity).
  exact (conj eq_refl (conj Hpos (conj Hj (conj Hupd
           (UpdateLinks_nearest_first incidentWorld ownLinksOnA satA linkAB
              satB _ _ _ _ eq_refl Hpos Hin Hd Hnearest Hj
              ltac:(discriminate) Hls Hupd))))).
Defined.

(** ** The tree when links are listed per satellite *)

Lemma trail_snoc W E u ls v l w :
  trail W E u ls v → l ∈ E → joins W l v w → trail W E u (ls ++ [l]) w.
Proof.
  induction 1 as [u|u e m ls v Hin Hj _ IH]; intros Hl Hjl; simpl.
  - econstructor; [done..|constructor].
  - econstructor; [done..|by apply IH].
Qed.

Lemma connectsVisited_round W a p mst p' mst' :
  treeInv W p mst → connectsVisited W a p mst →
  loopCond p mst = true → loopBody W p mst = Next p' mst' →
  connectsVisited W a p' mst'.
Proof.
  intros (Hq & _ & _) Hconn Hc Hb.
  destruct (loopBody_cases W p mst Hc) as (link & d & q & Hpq & Hcases).
  destruct Hcases as [(_ & _ & Hskip)|[(n & ls & Hnew & Hls & Hadd)|[p0 Hp]]].
  - rewrite Hskip in Hb. injection Hb as <- <-. done.
  - rewrite Hadd in Hb. injection Hb as <- <-.
    destruct (Hq link d) as (b0 & Hb0 & Hinc); [rewrite Hpq; by left|].
    assert (joins W link (SatelliteNode b0) (SatelliteNode n)) as Hj.
    { destruct Hnew as [[Hv Hs]|(_ & Hv & Hs)]; rewrite Hs in Hv;
        apply asSatellite_Some in Hs.
      - destruct Hinc as [H1|H2]; [|by right].
        rewrite Hs in H1. injection H1 as ->. congruence.
      - destruct Hinc as [H1|H2]; [by left|].
        rewrite Hs in H2. injection H2 as ->. congruence. }
    intros b Hvisited. simpl in Hvisited. rewrite mapGet_insert in Hvisited.
    destruct (decide (Some n = Some b)) as [[= <-]|_].
    + destruct (Hconn b0 Hb0) as [path Hpath]. exists (path ++ [link]).
      eapply trail_snoc; [|by apply elem_of_app; right; left|done].
      eapply trail_weaken; [|done]. intros e He. apply elem_of_app. by left.
    + destruct (Hconn b Hvisited) as [path Hpath]. exists path.
      eapply trail_weaken; [|done]. intros e He. apply elem_of_app. by left.
  - congruence.
Qed.

(** X20. When every protocol lists only links that have its own satellite as
    an endpoint (the protocol under study and the protocols of the other
    satellites), the established list after a recomputation that returns is
    a spanning tree of the visited satellites: it has no cycle and no link
    twice, both ends of each of its links are visited satellites, and it
    connects the mounted satellite to every visited satellite. *)
Theorem UpdateLinks_spanning_tree W p a res W' p' :
  satellite p = Some a →
  position p ≠ PositionVector W a →
  (∀ l, l ∈ links p → incident W l a) →
  (∀ b ls l, ISLProtocolLinks W !! b = Some ls → IslLinkRef l ∈ ls →
             incident W l b) →
  UpdateLinks W p = (Returned res, W', p') →
  ¬ hasCycle W' (established p')
  ∧ NoDup (established p')
  ∧ (∀ l v, l ∈ established p' → touches W' l v →
        ∃ b, v = SatelliteNode b ∧ mapGet (visited p') (Some b) = true)
  ∧ (∀ b, mapGet (visited p') (Some b) = true →
        ∃ ls, trail W' (established p') (SatelliteNode a) ls
                (SatelliteNode b)).
Proof.
  intros Hsat Hpos Hown Hothers Hupd.
  destruct (UpdateLinks_miss W p a res W' p' Hsat Hpos Hupd)
    as (q & mst & Hreach & _ & -> & -> & ->).
  apply (loopReaches_invariant W
           (λ p mst, treeInv W p mst ∧ connectsVisited W a p mst))
    in Hreach.
  - destruct Hreach as [(_ & Hends & Hgrown) Hconn].
    pose proof (reconcile_endpoints mst (established p) W) as Hsame.
    simpl. repeat split.
    + intros (u & ls & Hne & Hnd & Htrail).
      apply (grown_no_cycle W mst Hgrown). exists u, ls.
      repeat split; [done..|].
      eapply trail_same_endpoints; [|done].
      intros l. by destruct (Hsame l) as (? & ? & _).
    + by eapply grown_NoDup.
    + intros l v Hin Ht. apply (Hends l v Hin).
      unfold touches in *. by destruct (Hsame l) as (<- & <- & _).
    + intros b Hb. destruct (Hconn b Hb) as [ls Htrail]. exists ls.
      eapply trail_same_endpoints; [|done].
      intros l. by destruct (Hsame l) as (-> & -> & _).
  - intros p1 m1 p2 m2 [Htree Hconn] Hc Hb. split.
    + by apply (treeInv_round W Hothers p1 m1).
    + by apply (connectsVisited_round W a p1 m1).
  - split; [by apply (treeInv_beginPass W a (links p))|].
    intros b Hb. simpl in Hb. rewrite mapGet_insert, mapGet_empty in Hb.
    destruct (decide (Some a = Some b)) as [[= <-]|_]; [|done].
    exists []. constructor.
Qed.

Lemma UpdateLinks_spanning_tree_witness :
  satellite ownLinksOnA = Some satA
  ∧ position ownLinksOnA ≠ PositionVector incidentWorld satA
  ∧ UpdateLinks incidentWorld ownLinksOnA
    = (Returned [IslLinkRef linkAB; IslLinkRef linkBC],
       (UpdateLinks incidentWorld ownLinksOnA).1.2,
       (UpdateLinks incidentWorld ownLinksOnA).2)
  ∧ ¬ hasCycle (UpdateLinks incidentWorld ownLinksOnA).1.2
        (established (UpdateLinks incidentWorld ownLinksOnA).2)
  ∧ NoDup (established (UpdateLinks incidentWorld ownLinksOnA).2).
Proof.
  pose proof (incidentWorld_miss incidentWorld eq_refl) as Hpos.
  pose proof UpdateLinks_incidentWorld as Hupd.
  destruct (UpdateLinks_spanning_tree incidentWorld ownLinksOnA satA _ _ _
              eq_refl Hpos incidentWorld_own incidentWorld_others Hupd)
    as (Hacyclic & Hnodup & _).
  exact (conj eq_refl (conj Hpos (conj Hupd (conj Hacyclic Hnodup)))).
Defined.
